(** * Verification of [easybuild/tools/multidiff.py]

    A shallow embedding of the multi-file diff module of EasyBuild: the
    [MultiDiff] class (registering diff lines, merging squigly lines,
    colorizing, rendering one line, rendering the report) and the
    [multidiff] function that feeds it from the output of a line differ.

    Conventions.
    - Python [str] is [string]; a one-character string is an [ascii]; a
      Python list of characters is [list ascii].
    - Python [int] is [Z]; list positions are [nat].
    - A [dict] is a [gmap], a [set] is a [gset].  The iteration order of a
      Python set or dict is unspecified; where the code iterates one, the
      model iterates [elements] / [map_to_list], and no general theorem
      below relies on that order; an example on concrete data shows the
      order that [elements] gives there.
    - A Python exception is a value of [exn]; code that can raise lives in
      the [result] monad.
    - The module is Python 2 code: [filter] returns a list, so that
      [if lines:] in [__str__] tests whether any line is left. *)

From Stdlib Require Import ZArith Ascii String List Lia.
From stdpp Require Import base option list sorting gmap sets strings.

Set Warnings "-clear-no-such-hyp".

(** ** Exceptions *)

Inductive exn : Type :=
  | IndexError
  | KeyError
  | ValueError
  | EasyBuildError (msg : string).

Inductive result (A : Type) : Type :=
  | Ok (a : A)
  | Raise (e : exn).
Arguments Ok {A} a.
Arguments Raise {A} e.

#[global] Instance result_ret : MRet result := λ A a, Ok a.
#[global] Instance result_bind : MBind result := λ A B f m,
  match m with
  | Ok a => f a
  | Raise e => Raise e
  end.

(** A [for] loop whose body may raise. *)
Fixpoint foldM {A S : Type} (f : S → A → result S) (s : S) (l : list A) : result S :=
  match l with
  | [] => Ok s
  | x :: l' => s' ← f s x; foldM f s' l'
  end.

(** [enumerate(l)], counting from [i]. *)
Fixpoint enumerate_from {A : Type} (i : nat) (l : list A) : list (nat * A) :=
  match l with
  | [] => []
  | x :: l' => (i, x) :: enumerate_from (S i) l'
  end.
Definition enumerate {A : Type} (l : list A) : list (nat * A) := enumerate_from 0 l.

(** ** Module constants *)

Definition SEP_WIDTH : nat := 5.

Definition ESC : ascii := "027"%char.
Definition PURPLE : string := String ESC "[0;35m".
Definition GREEN_BACK : string := String ESC "[0;42m".
Definition RED_BACK : string := String ESC "[0;41m".
Definition END_COLOR : string := String ESC "[0m".

Definition HAT : ascii := "^"%char.
Definition MINUS : ascii := "-"%char.
Definition PLUS : ascii := "+"%char.
Definition SPACE : ascii := " "%char.
Definition QUESTIONMARK : ascii := "?"%char.

Definition END_LONG_LINE : string := "...".

Definition MAX_DIFF_GROUPS : nat := 3.

(** ** Python string primitives *)

(** [s.startswith(c)] for a one-character prefix. *)
Definition startswith (s : string) (c : ascii) : bool :=
  match s with
  | String a _ => bool_decide (a = c)
  | EmptyString => false
  end.

(** [s[0]]: the first character, [IndexError] on the empty string. *)
Definition first_char (s : string) : result ascii :=
  match s with
  | String a _ => Ok a
  | EmptyString => Raise IndexError
  end.

(** Truth value of a string: non-empty. *)
Definition nonempty (s : string) : bool :=
  match s with
  | EmptyString => false
  | String _ _ => true
  end.

(** [s.rstrip()]: drop trailing whitespace. *)
Fixpoint rstrip (s : string) : string :=
  match s with
  | EmptyString => EmptyString
  | String a s' =>
      match rstrip s' with
      | EmptyString => if Ascii.is_space a then EmptyString else String a EmptyString
      | r => String a r
      end
  end.

(** [sep.join(l)]. *)
Fixpoint join (sep : string) (l : list string) : string :=
  match l with
  | [] => ""
  | [x] => x
  | x :: l' => x +:+ sep +:+ join sep l'
  end.

(** [c * n] for a one-character string [c]. *)
Fixpoint str_mul (c : ascii) (n : nat) : string :=
  match n with
  | O => ""
  | S n' => String c (str_mul c n')
  end.

(** [s[:k]], with Python's reading of a negative bound. *)
Fixpoint str_take (n : nat) (s : string) : string :=
  match n, s with
  | S n', String a s' => String a (str_take n' s')
  | _, _ => ""
  end.
Definition slice_to (s : string) (k : Z) : string :=
  if (k <? 0)%Z
  then str_take (Z.to_nat (Z.of_nat (String.length s) + k)) s
  else str_take (Z.to_nat k) s.

(** Decimal rendering of an [int] ([str(n)], ["%d" % n]). *)
Definition digit_char (d : Z) : ascii :=
  ascii_of_nat (48 + Z.to_nat d).
Fixpoint digits_go (fuel : nat) (n : Z) (acc : string) : string :=
  let acc' := String (digit_char (n mod 10)) acc in
  match fuel with
  | O => acc'
  | S fuel' => if (n <? 10)%Z then acc' else digits_go fuel' (n / 10) acc'
  end.
Definition digits (n : Z) : string := digits_go (Z.to_nat (Z.log2 n)) n "".
Definition str_of_Z (n : Z) : string :=
  if (n <? 0)%Z then String "-" (digits (- n)) else digits n.

(** [int(math.log10(n))]: [ValueError] (math domain error) unless [n] is
    positive.  The value is the exact integer logarithm; the double
    precision [math.log10] agrees with it for every [n] below [10^15]. *)
Fixpoint ilog10_go (fuel : nat) (n : Z) : Z :=
  match fuel with
  | O => 0
  | S fuel' => if (n <? 10)%Z then 0 else (1 + ilog10_go fuel' (n / 10))%Z
  end.
Definition int_log10 (n : Z) : result Z :=
  if (n <=? 0)%Z then Raise ValueError
  else Ok (ilog10_go (Z.to_nat (Z.log2 n)) n).

(** [os.path.basename(p)]: what follows the last slash. *)
Fixpoint basename (p : string) : string :=
  match p with
  | EmptyString => EmptyString
  | String a p' =>
      if existsb (λ c, bool_decide (c = "/"%char)) (list_ascii_of_string p')
      then basename p'
      else if bool_decide (a = "/"%char) then p' else p
  end.

(** [s.split('\n')]. *)
Fixpoint split_lines (s : string) : list string :=
  match s with
  | EmptyString => [""]
  | String a s' =>
      if bool_decide (a = "010"%char) then "" :: split_lines s'
      else match split_lines s' with
           | [] => [String a ""]
           | l :: ls => String a l :: ls
           end
  end.

(** [list.insert(i, x)] for a non-negative [i]: past the end it appends. *)
Definition py_insert {A : Type} (i : nat) (x : A) (l : list A) : list A :=
  take i l ++ x :: drop i l.

(** [l[i]] for a non-negative [i]. *)
Definition py_index {A : Type} (l : list A) (i : nat) : result A :=
  match l !! i with
  | Some x => Ok x
  | None => Raise IndexError
  end.

(** ** [MultiDiff.merge_squigly] *)

Definition hat_or_space (c : ascii) : bool :=
  bool_decide (c = HAT) || bool_decide (c = SPACE).

(** One round of the loop over [enumerate(other)]. *)
Definition merge_step (base : list ascii) (ic : nat * ascii) : result (list ascii) :=
  let '(i, char) := ic in
  b ← py_index base i;
  if hat_or_space b && negb (bool_decide (b = char))
  then Ok (<[i := char]> base)
  else Ok base.

Definition merge_squigly (squigly1 squigly2 : string) : result string :=
  let sq1 := list_ascii_of_string squigly1 in
  let sq2 := list_ascii_of_string squigly2 in
  let '(base, other) :=
    if (length sq2 <? length sq1)%nat then (sq1, sq2) else (sq2, sq1) in
  base' ← foldM merge_step base (enumerate other);
  Ok (string_of_list_ascii base').


(** ** The [MultiDiff] class *)

(** A registered diff line: [(diff_line, meta, squigly_line)]. *)
Definition diff_tuple : Type := string * string * string.

Record MultiDiff : Type := mkMultiDiff {
  base_fn : string;
  base_lines : list string;
  files : list string;
  colored : bool;
  diff_info : gmap Z (gmap ascii (list diff_tuple))
}.

(** [MultiDiff(base_fn, base_lines, files, colored)]. *)
Definition MultiDiff_init (base_fn : string) (base_lines files : list string)
    (colored : bool) : MultiDiff :=
  mkMultiDiff base_fn base_lines files colored ∅.

Definition set_diff_info (self : MultiDiff)
    (d : gmap Z (gmap ascii (list diff_tuple))) : MultiDiff :=
  mkMultiDiff (base_fn self) (base_lines self) (files self) (colored self) d.

(** [d[k]], [KeyError] when absent. *)
Definition dict_get `{Countable K} {V : Type} (d : gmap K V) (k : K) : result V :=
  match d !! k with
  | Some v => Ok v
  | None => Raise KeyError
  end.

Fixpoint mapM {A B : Type} (f : A → result B) (l : list A) : result (list B) :=
  match l with
  | [] => Ok []
  | x :: l' => y ← f x; ys ← mapM f l'; Ok (y :: ys)
  end.

(** *** [color_line] *)

Definition color_line (self : MultiDiff) (line color : string) : string :=
  if colored self then color +:+ line +:+ END_COLOR else line.

(** *** [colorize] *)

Definition color_map (line : string) : gmap ascii string :=
  <[HAT := if startswith line PLUS then GREEN_BACK else RED_BACK]>
  (<[MINUS := RED_BACK]> (<[PLUS := GREEN_BACK]> ∅)).

(** The state of the loop over the squigly line: [(chars, flag, offset)]. *)
Definition colorize_step (line : string)
    (st : list string * ascii * nat) (ic : nat * ascii)
    : result (list string * ascii * nat) :=
  let '(chars, flag, offset) := st in
  let '(i, squigly_char) := ic in
  if bool_decide (squigly_char ≠ flag) then
    let chars := py_insert (i + offset) END_COLOR chars in
    let offset := S offset in
    if bool_decide (squigly_char ∈ [HAT; MINUS; PLUS]) then
      color ← dict_get (color_map line) squigly_char;
      Ok (py_insert (i + offset) color chars, squigly_char, S offset)
    else Ok (chars, squigly_char, offset)
  else Ok st.

Definition colorize (self : MultiDiff) (line squigly : string) : result string :=
  if negb (colored self) then Ok line
  else
    let chars := (λ c, String c "") <$> list_ascii_of_string line in
    if nonempty squigly then
      '(chars, _, offset) ←
        foldM (colorize_step line) (chars, " "%char, 0%nat)
              (enumerate (list_ascii_of_string squigly));
      Ok (join "" (py_insert (String.length squigly + offset) END_COLOR chars))
    else
      c ← first_char line;
      Ok (join "" (default "" (color_map line !! c) :: chars ++ [END_COLOR])).

(** *** [get_line] *)

(** The three accumulators of the loop over [diff_dict[key]]. *)
Record collected : Type := mkCollected {
  lines : gset string;
  changes_dict : gmap string (gset string);
  squiglies : gmap string string
}.

Definition collected_empty : collected := mkCollected ∅ ∅ ∅.

Definition collect_step (st : collected) (t : diff_tuple) : result collected :=
  let '(diff_line, meta, squigly_line) := t in
  squiglies' ←
    (if nonempty squigly_line then
       squigly_line' ←
         match squiglies st !! diff_line with
         | Some previous => merge_squigly squigly_line previous
         | None => Ok squigly_line
         end;
       Ok (<[diff_line := squigly_line']> (squiglies st))
     else Ok (squiglies st));
  Ok (mkCollected
        ({[diff_line]} ∪ lines st)
        (<[diff_line := {[meta]} ∪ default ∅ (changes_dict st !! diff_line)]>
           (changes_dict st))
        squiglies').

Definition collect (diff_dict : gmap ascii (list diff_tuple)) (key : ascii)
    : result collected :=
  match diff_dict !! key with
  | Some tuples => foldM collect_step collected_empty tuples
  | None => Ok collected_empty
  end.

(** [sorted(l, key=...)] on already decorated elements: a stable sort,
    smallest key first. *)
Fixpoint insert_by_key {A : Type} (x : A * nat) (l : list (A * nat)) : list (A * nat) :=
  match l with
  | [] => [x]
  | y :: l' => if (x.2 <=? y.2)%nat then x :: y :: l' else y :: insert_by_key x l'
  end.
Definition sorted_by_key {A : Type} (l : list (A * nat)) : list (A * nat) :=
  foldr insert_by_key [] l.

(** [sorted(lines, key=lambda line: len(changes_dict[line]))[:MAX_DIFF_GROUPS]],
    each line still paired with its key. *)
Definition keyed_lines (st : collected) : result (list (string * nat)) :=
  mapM (λ line, fs ← dict_get (changes_dict st) line; Ok (line, size fs))
       (elements (lines st)).

Definition shown_lines (st : collected) : result (list (string * nat)) :=
  keyed ← keyed_lines st;
  Ok (take MAX_DIFF_GROUPS (sorted_by_key keyed)).

(** The body of the loop over the lines to show: the one or two output
    lines of one variant. *)
Definition render_variant (self : MultiDiff) (line_no : Z) (st : collected)
    (diff_line : string) : result (list string) :=
  let squigly_line := default "" (squiglies st !! diff_line) in
  text ← colorize self diff_line squigly_line;
  let line := [str_of_Z line_no +:+ " " +:+ text] in
  fs ← dict_get (changes_dict st) diff_line;
  let num_files := length (files self) in
  let line :=
    line ++ ["(" +:+ str_of_Z (Z.of_nat (size fs)) +:+ "/"
                 +:+ str_of_Z (Z.of_nat num_files) +:+ ")"] in
  let line :=
    if bool_decide (size fs ≠ num_files)
    then line ++ [join ", " (elements fs)] else line in
  let output := [join " " line] in
  if negb (colored self) && nonempty squigly_line then
    n ← int_log10 line_no;
    Ok (output ++ [str_mul " " (Z.to_nat (2 + n)) +:+ squigly_line])
  else Ok output.

(** One round of the loop over [[MINUS, PLUS]]. *)
Definition get_line_key (self : MultiDiff) (line_no : Z)
    (diff_dict : gmap ascii (list diff_tuple))
    (output : list string) (key : ascii) : result (list string) :=
  st ← collect diff_dict key;
  shown ← shown_lines st;
  foldM (λ output diff_line,
           rendered ← render_variant self line_no st diff_line;
           Ok (output ++ rendered))
        output (shown.*1).

Definition separator : list string := [" "; str_mul "-" SEP_WIDTH; " "].

Definition get_line (self : MultiDiff) (line_no : Z) : result (list string) :=
  let diff_dict := default ∅ (diff_info self !! line_no) in
  output ← foldM (get_line_key self line_no diff_dict) [] [MINUS; PLUS];
  if bool_decide (diff_dict ≠ ∅)
     && bool_decide (default ∅ (diff_info self !! (line_no + 1)%Z) = ∅)
  then Ok (output ++ separator)
  else Ok output.

(** *** [__str__] and its helper [limit] *)

Definition limit (self : MultiDiff) (text : string) (length : Z) : string :=
  if (length <? Z.of_nat (String.length text))%Z then
    let maxlen := (length - Z.of_nat (String.length END_LONG_LINE))%Z in
    let res := slice_to text maxlen in
    let res := if colored self then res +:+ END_COLOR else res in
    res +:+ END_LONG_LINE
  else text.

Definition NL : string := String "010" "".

(** One round of the loop over [range(len(self.base_lines))]; the state is
    [(output, diff)]. *)
Definition str_step (self : MultiDiff) (term_width : Z)
    (st : list string * bool) (i : nat) : result (list string * bool) :=
  let '(output, diff) := st in
  got ← get_line self (Z.of_nat i);
  let lines := filter (λ l, nonempty l = true) got in
  match lines with
  | [] => Ok (output, diff)
  | _ => Ok (output ++ [join NL ((λ line, limit self line term_width) <$> lines)], true)
  end.

Section Collaborators.

(** What the module imports and does not define: the logger (whether its
    [error] method raises), the file reader, the line differ
    ([difflib.Differ().compare]) and the terminal size query. *)
Variable log_error_raises : bool.
Variable read_file : string → string.
Variable differ_compare : list string → list string → list string.
Variable det_terminal_size : Z * Z.

Definition log_error (msg : string) : result unit :=
  if log_error_raises then Raise (EasyBuildError msg) else Ok tt.

(** *** [parse_line] *)

Definition parse_line (self : MultiDiff) (line_no : Z)
    (diff_line meta squigly_line : string) : result MultiDiff :=
  key ← first_char diff_line;
  _ ← (if negb (bool_decide (key ∈ [MINUS; PLUS]))
       then log_error ("diff line starts with unexpected character: " +:+ diff_line)
       else Ok tt);
  let by_key := default ∅ (diff_info self !! line_no) in
  let line_key_tuples := default [] (by_key !! key) in
  Ok (set_diff_info self
        (<[line_no := <[key := line_key_tuples ++ [(diff_line, meta, squigly_line)]]> by_key]>
           (diff_info self))).

Definition to_str (self : MultiDiff) : result string :=
  let term_width := det_terminal_size.1 in
  let base := color_line self (base_fn self) PURPLE in
  let filenames := join ", " (basename <$> files self) in
  let output :=
    ["Comparing " +:+ base +:+ " with " +:+ filenames; str_mul "=" SEP_WIDTH] in
  st ← foldM (str_step self term_width) (output, false)
             (seq 0 (length (base_lines self)));
  let '(output, diff) := st in
  let output := if (diff : bool) then output else output ++ ["(no diff)"] in
  Ok (join NL (output ++ [str_mul "=" SEP_WIDTH])).

(** ** [multidiff] *)

(** The running variables of the loop over the differ's output. *)
Record norm_state : Type := mkNorm {
  local_diff : gmap Z (list (string * string));
  squigly_dict : gmap (option string) string;
  last_added : option string;
  offset : Z
}.

Definition norm_init : norm_state := mkNorm ∅ ∅ None 1.

(** [local_diff.setdefault(k, []).append(x)]. *)
Definition setdefault_append {A : Type} (k : Z) (x : A) (d : gmap Z (list A))
    : gmap Z (list A) :=
  <[k := default [] (d !! k) ++ [x]]> d.

Definition norm_step (filename : string) (st : norm_state) (il : nat * string)
    : norm_state :=
  let '(i, line) := il in
  if startswith line QUESTIONMARK then
    mkNorm (local_diff st) (<[last_added st := line]> (squigly_dict st))
           (last_added st) (offset st - 1)
  else if startswith line PLUS then
    mkNorm (setdefault_append (Z.of_nat i + offset st) (line, filename) (local_diff st))
           (squigly_dict st) (Some line) (offset st)
  else if startswith line MINUS then
    mkNorm (setdefault_append (Z.of_nat i + offset st) (line, filename) (local_diff st))
           (squigly_dict st) (Some line) (offset st - 1)
  else st.

Definition normalize (filename : string) (diff : list string) : norm_state :=
  foldl (norm_step filename) norm_init (enumerate diff).

(** The loop that hands the content of [local_diff] to [parse_line]. *)
Definition register_line (st : norm_state) (line_no : Z) (mdiff : MultiDiff)
    (lf : string * string) : result MultiDiff :=
  let '(line, filename) := lf in
  parse_line mdiff line_no (rstrip line) filename
             (rstrip (default "" (squigly_dict st !! Some line))).

Definition register (st : norm_state) (mdiff : MultiDiff) : result MultiDiff :=
  foldM (λ mdiff '(line_no, entries), foldM (register_line st line_no) mdiff entries)
        mdiff (map_to_list (local_diff st)).

(** One round of the loop over [files], given the differ's output. *)
Definition add_diff (mdiff : MultiDiff) (filename : string) (diff : list string)
    : result MultiDiff :=
  register (normalize filename diff) mdiff.

Definition add_file (base_lines : list string) (mdiff : MultiDiff) (filepath : string)
    : result MultiDiff :=
  let lines := split_lines (read_file filepath) in
  let diff := differ_compare lines base_lines in
  let filename := basename filepath in
  add_diff mdiff filename diff.

(** Everything of [multidiff] but the final [str(mdiff)]. *)
Definition multidiff_object (base : string) (files : list string) (colored : bool)
    : result MultiDiff :=
  let base_lines := split_lines (read_file base) in
  let mdiff := MultiDiff_init (basename base) base_lines files colored in
  foldM (add_file base_lines) mdiff files.

Definition multidiff (base : string) (files : list string) (colored : bool)
    : result string :=
  mdiff ← multidiff_object base files colored;
  to_str mdiff.

End Collaborators.

(** * Specification-side definitions *)

(** The loop of [merge_squigly] as a function of the two character lists:
    column by column, a blank or caret of [base] that differs from the
    character of [other] is overwritten by it. *)
Fixpoint overwrite_columns (base other : list ascii) : list ascii :=
  match base, other with
  | b :: base', c :: other' =>
      (if hat_or_space b && negb (bool_decide (b = c)) then c else b)
        :: overwrite_columns base' other'
  | _, _ => base
  end.

(** Which argument [merge_squigly] takes as base, and which as other. *)
Definition merge_base (squigly1 squigly2 : string) : string :=
  if (String.length squigly2 <? String.length squigly1)%nat then squigly1 else squigly2.
Definition merge_other (squigly1 squigly2 : string) : string :=
  if (String.length squigly2 <? String.length squigly1)%nat then squigly2 else squigly1.

(** The value of a computation that did not raise. *)
Definition from_ok {A : Type} (d : A) (r : result A) : A :=
  match r with
  | Ok a => a
  | Raise _ => d
  end.

Definition tuple_line (t : diff_tuple) : string := t.1.1.
Definition tuple_meta (t : diff_tuple) : string := t.1.2.
Definition tuple_squigly (t : diff_tuple) : string := t.2.

(** The tuples of a bucket that carry a given text. *)
Definition with_text (text : string) (tuples : list diff_tuple) : list diff_tuple :=
  filter (λ t, tuple_line t = text) tuples.

(** The source files of the tuples that carry a given text. *)
Definition group_files (tuples : list diff_tuple) (text : string) : gset string :=
  list_to_set (tuple_meta <$> with_text text tuples).

(** The order [sorted_by_key] sorts by. *)
Definition key_le {A : Type} (x y : A * nat) : Prop := x.2 ≤ y.2.

(** The loop of [get_line_key] over the lines to show. *)
Definition render_shown (self : MultiDiff) (line_no : Z) (st : collected)
    (output : list string) (shown : list string) : result (list string) :=
  foldM (λ output diff_line,
           rendered ← render_variant self line_no st diff_line;
           Ok (output ++ rendered))
        output shown.

(** What the three dictionaries hold once the tuples [visited] went
    through the loop. *)
Definition collected_inv (visited : list diff_tuple) (st : collected) : Prop :=
  lines st = list_to_set (tuple_line <$> visited) ∧
  (∀ text, changes_dict st !! text =
             if decide (text ∈ lines st) then Some (group_files visited text) else None) ∧
  (∀ text squigly, squiglies st !! text = Some squigly →
                   squigly ≠ "" ∧ text ∈ lines st).

(** The differ's output, read the way the loop of [multidiff] reads it: a
    line is a change when it starts with [PLUS] or [MINUS]; every line but
    a [QUESTIONMARK] or [MINUS] line stands for a line of the base. *)
Definition is_change (line : string) : bool :=
  startswith line PLUS || startswith line MINUS.
Definition advances (line : string) : bool :=
  negb (startswith line QUESTIONMARK || startswith line MINUS).

(** One more than the number of base lines that precede position [i] of
    the differ's output. *)
Definition anchor (diff : list string) (i : nat) : Z :=
  1 + Z.of_nat (length (filter (λ line, advances line = true) (take i diff))).

(** The last change line of a stretch of the differ's output. *)
Definition last_change (diff : list string) : option string :=
  last (filter (λ line, is_change line = true) diff).

(** The change lines of the differ's output anchored at [k], in order. *)
Definition registered_at (filename : string) (diff : list string) (k : Z)
    : list (string * string) :=
  (λ il : nat * string, (il.2, filename)) <$>
    filter (λ il : nat * string, is_change il.2 = true ∧ anchor diff il.1 = k)
           (enumerate diff).

(** The last squigly line that follows, with no change line in between, a
    change line of text [key] (or no change line at all, for [None]). *)
Definition squigly_for (diff : list string) (key : option string) : option string :=
  last (snd <$>
    filter (λ il : nat * string,
              startswith il.2 QUESTIONMARK = true ∧ last_change (take il.1 diff) = key)
           (enumerate diff)).

(** The tuples registered for line [n] under [key]. *)
Definition tuples_at (self : MultiDiff) (n : Z) (key : ascii) : list diff_tuple :=
  default [] (default ∅ (diff_info self !! n) !! key).

(** Two objects that differ at most in what is registered. *)
Definition same_setup (a b : MultiDiff) : Prop :=
  base_fn a = base_fn b ∧ base_lines a = base_lines b ∧
  files a = files b ∧ colored a = colored b.

(** What the registration loop of [multidiff] hands to [parse_line] for a
    change line, given the squigly line found for its text. *)
Definition entry_tuple (squigly : option string → option string)
    (lf : string * string) : diff_tuple :=
  (rstrip lf.1, lf.2, rstrip (default "" (squigly (Some lf.1)))).

(** The tuples that the changes of one differ output contribute to line
    [n] under [key]. *)
Definition entries_under (squigly : option string → option string) (key : ascii)
    (entries : list (string * string)) : list diff_tuple :=
  entry_tuple squigly <$> filter (λ lf : string * string, startswith lf.1 key = true) entries.
Definition changes_under (filename : string) (diff : list string) (n : Z) (key : ascii)
    : list diff_tuple :=
  entries_under (squigly_for diff) key (registered_at filename diff n).
(** The tuples that comparing [filepath] with the base contributes to line
    [n] under [key]. *)
Definition file_changes (read_file : string → string)
    (differ_compare : list string → list string → list string)
    (base_lines : list string) (n : Z) (key : ascii) (filepath : string)
    : list diff_tuple :=
  changes_under (basename filepath)
                (differ_compare (split_lines (read_file filepath)) base_lines) n key.

(** A text without its escape sequences: whatever runs from an [ESC] to
    the next [m] is dropped. *)
Fixpoint strip_escapes_go (in_escape : bool) (s : string) : string :=
  match s with
  | EmptyString => EmptyString
  | String a s' =>
      if in_escape then strip_escapes_go (negb (bool_decide (a = "m"%char))) s'
      else if bool_decide (a = ESC) then strip_escapes_go true s'
      else String a (strip_escapes_go false s')
  end.
Definition strip_escapes (s : string) : string := strip_escapes_go false s.

(** The pieces [colorize] works on: the escape sequences it inserts and
    the characters of the line. *)
Definition is_escape (s : string) : Prop :=
  s = "" ∨ s = END_COLOR ∨ s = GREEN_BACK ∨ s = RED_BACK.
Definition is_plain (s : string) : Prop :=
  ∃ c : ascii, s = String c "" ∧ c ≠ ESC.
Definition pieces_ok (chars : list string) : Prop :=
  Forall (λ s, is_escape s ∨ is_plain s) chars.
Definition plain_of (chars : list string) : string :=
  join "" (filter (λ s, String.length s = 1%nat) chars).

(** Every registered tuple sits under a line number from 1 on and has a
    non-empty text. *)
Definition well_registered (self : MultiDiff) : Prop :=
  ∀ n k t, t ∈ tuples_at self n k → (1 ≤ n)%Z ∧ tuple_line t ≠ "".

(** Every bucket of [diff_info] holds at least one tuple. *)
Definition tidy (self : MultiDiff) : Prop :=
  ∀ n d, diff_info self !! n = Some d → ∃ k t, t ∈ default [] (d !! k).

(** The squigly line [get_line] ends up with for a text: the non-empty
    squigly lines of the tuples that carry the text, each merged, in the
    order of the tuples, with what was merged before. *)
Definition merge_into (acc : option string) (squigly : string) : option string :=
  Some (match acc with
        | Some previous => from_ok squigly (merge_squigly squigly previous)
        | None => squigly
        end).
Definition merged_squigly (tuples : list diff_tuple) (text : string) : option string :=
  foldl merge_into None
        (filter (λ s, s ≠ "") (tuple_squigly <$> with_text text tuples)).

(** Whether a text leaves a color switched on: its last escape sequence
    (from an [ESC] to the next [m]) is not the reset sequence. *)
Fixpoint color_left_on_go (escape : option string) (on : bool) (s : string) : bool :=
  match s with
  | EmptyString => on
  | String a s' =>
      match escape with
      | Some body =>
          if bool_decide (a = "m"%char)
          then color_left_on_go None
                 (negb (bool_decide (String ESC (body +:+ "m") = END_COLOR))) s'
          else color_left_on_go (Some (body +:+ String a "")) on s'
      | None =>
          if bool_decide (a = ESC) then color_left_on_go (Some "") on s'
          else color_left_on_go None on s'
      end
  end.
Definition color_left_on (s : string) : bool := color_left_on_go None false s.

(** * Properties *)

(** ** Strings and lists of characters *)

Lemma length_list_ascii (s : string) :
  length (list_ascii_of_string s) = String.length s.
Proof. induction s as [|a s IH]; simpl; [done | by rewrite IH]. Qed.

Lemma lookup_list_ascii (s : string) (i : nat) :
  list_ascii_of_string s !! i = String.get i s.
Proof.
  revert i; induction s as [|a s IH]; intros [|i]; simpl; auto.
Qed.

Lemma length_string_of_list (l : list ascii) :
  String.length (string_of_list_ascii l) = length l.
Proof. induction l as [|a l IH]; simpl; [done | by rewrite IH]. Qed.

Lemma length_append (s t : string) :
  String.length (s +:+ t) = (String.length s + String.length t)%nat.
Proof. induction s as [|a s IH]; simpl; [done | by rewrite IH]. Qed.

(** ** [merge_squigly] *)

Lemma length_overwrite_columns (base other : list ascii) :
  length (overwrite_columns base other) = length base.
Proof.
  revert other; induction base as [|b base IH]; intros [|c other]; simpl; auto.
Qed.

Lemma overwrite_columns_nil (base : list ascii) : overwrite_columns base [] = base.
Proof. by destruct base. Qed.

Lemma lookup_overwrite_columns (base other : list ascii) (i : nat) :
  overwrite_columns base other !! i =
    match base !! i, other !! i with
    | Some b, Some c => Some (if hat_or_space b && negb (bool_decide (b = c)) then c else b)
    | ob, _ => ob
    end.
Proof.
  revert other i; induction base as [|b base IH]; intros [|c other] [|i]; simpl; auto.
  by destruct (base !! i).
Qed.

Lemma overwrite_columns_same (l : list ascii) : overwrite_columns l l = l.
Proof.
  induction l as [|a l IH]; simpl; auto.
  rewrite IH, bool_decide_true by done. by rewrite andb_false_r.
Qed.

(** The loop never indexes out of range and computes [overwrite_columns]. *)
Lemma foldM_merge_step (other base : list ascii) (i : nat) :
  i + length other ≤ length base →
  foldM merge_step base (enumerate_from i other)
  = Ok (take i base ++ overwrite_columns (drop i base) other).
Proof.
  revert base i; induction other as [|c other IH]; intros base i Hlen; simpl in *.
  - by rewrite overwrite_columns_nil, take_drop.
  - destruct (lookup_lt_is_Some_2 base i) as [b Hb]; [lia|].
    unfold py_index. rewrite Hb. simpl.
    rewrite (drop_S _ _ _ Hb). simpl.
    destruct (hat_or_space b && negb (bool_decide (b = c))); simpl.
    + rewrite IH by (rewrite length_insert; lia).
      f_equal. rewrite take_S_r with (x := c).
      * rewrite take_insert_ge by lia. rewrite drop_insert_lt by lia.
        by rewrite <- app_assoc.
      * apply list_lookup_insert_eq. lia.
    + rewrite IH by lia. f_equal.
      rewrite (take_S_r _ _ _ Hb). by rewrite <- app_assoc.
Qed.

Lemma merge_squigly_total (squigly1 squigly2 : string) :
  merge_squigly squigly1 squigly2
  = Ok (string_of_list_ascii
          (overwrite_columns (list_ascii_of_string (merge_base squigly1 squigly2))
                             (list_ascii_of_string (merge_other squigly1 squigly2)))).
Proof.
  unfold merge_squigly, merge_base, merge_other, enumerate.
  rewrite !length_list_ascii.
  destruct (String.length squigly2 <? String.length squigly1)%nat eqn:E.
  - apply Nat.ltb_lt in E.
    rewrite foldM_merge_step by (rewrite !length_list_ascii; lia).
    by rewrite take_0, drop_0.
  - apply Nat.ltb_ge in E.
    rewrite foldM_merge_step by (rewrite !length_list_ascii; lia).
    by rewrite take_0, drop_0.
Qed.

(** C5. [merge_squigly] takes the longer string as base (the second one when
    the lengths are equal); the result has the length of the base, which is
    the larger of the two lengths; column by column it holds the character
    of the other string exactly where that string has a column and the
    base's character is blank or caret and differs from it, and the base's
    character everywhere else; merging a string with itself returns it. *)
Theorem merge_squigly_columns (squigly1 squigly2 : string) :
  let base := merge_base squigly1 squigly2 in
  let other := merge_other squigly1 squigly2 in
  String.length other ≤ String.length base ∧
  String.length base = String.length squigly1 `max` String.length squigly2 ∧
  (∃ merged,
     merge_squigly squigly1 squigly2 = Ok merged ∧
     String.length merged = String.length base ∧
     ∀ i : nat,
       String.get i merged =
         match String.get i base, String.get i other with
         | Some b, Some c =>
             if bool_decide ((b = SPACE ∨ b = HAT) ∧ b ≠ c) then Some c else Some b
         | ob, _ => ob
         end) ∧
  merge_squigly squigly1 squigly1 = Ok squigly1.
Proof.
  intros base other. subst base other.
  split; [|split; [|split]].
  - unfold merge_base, merge_other.
    destruct (String.length squigly2 <? String.length squigly1)%nat eqn:E;
      [apply Nat.ltb_lt in E | apply Nat.ltb_ge in E]; lia.
  - unfold merge_base.
    destruct (String.length squigly2 <? String.length squigly1)%nat eqn:E;
      [apply Nat.ltb_lt in E | apply Nat.ltb_ge in E]; lia.
  - eexists. split; [apply merge_squigly_total|]. split.
    + by rewrite length_string_of_list, length_overwrite_columns, length_list_ascii.
    + intros i. rewrite <- !lookup_list_ascii.
      rewrite list_ascii_of_string_of_list_ascii, lookup_overwrite_columns.
      destruct (list_ascii_of_string (merge_base squigly1 squigly2) !! i) as [b|]; [|done].
      destruct (list_ascii_of_string (merge_other squigly1 squigly2) !! i) as [c|]; [|done].
      unfold hat_or_space.
      repeat case_bool_decide; simpl; try done; exfalso; intuition congruence.
  - rewrite merge_squigly_total. unfold merge_base, merge_other.
    rewrite Nat.ltb_irrefl, overwrite_columns_same.
    by rewrite string_of_list_ascii_of_string.
Qed.

(** ** Decimal rendering and [int_log10] *)

Lemma log2_div10 (n : Z) : (10 ≤ n)%Z → (Z.log2 (n / 10) < Z.log2 n)%Z.
Proof.
  intros Hn.
  assert (H1 : (1 ≤ Z.log2 n)%Z) by (apply Z.log2_le_pow2; rewrite ?Z.pow_1_r; lia).
  assert (H2 : (Z.log2 (n / 2) = Z.log2 n - 1)%Z).
  { change 2%Z with (2 ^ 1)%Z at 1. rewrite <- Z.shiftr_div_pow2 by lia.
    rewrite Z.log2_shiftr by lia. lia. }
  assert (H3 : (n / 10 ≤ n / 2)%Z) by (apply Z.div_le_compat_l; lia).
  apply Z.log2_le_mono in H3. lia.
Qed.

Lemma ilog10_go_nonneg (fuel : nat) (n : Z) : (0 ≤ ilog10_go fuel n)%Z.
Proof.
  revert n; induction fuel as [|fuel IH]; intros n; simpl; [lia|].
  destruct (n <? 10)%Z; [lia|]. specialize (IH (n / 10)%Z). lia.
Qed.

(** With the fuel [int_log10] gives it, [ilog10_go] is the integer part of
    the decimal logarithm. *)
Lemma ilog10_go_spec (fuel : nat) (n : Z) :
  (1 ≤ n)%Z → (Z.log2 n ≤ Z.of_nat fuel)%Z →
  (10 ^ ilog10_go fuel n ≤ n < 10 ^ (ilog10_go fuel n + 1))%Z.
Proof.
  revert n; induction fuel as [|fuel IH]; intros n Hn Hf; simpl.
  - assert (n ≤ 1)%Z by (apply Z.log2_null; pose proof (Z.log2_nonneg n); lia).
    simpl. lia.
  - destruct (Z.ltb_spec n 10) as [Hlt|Hge]; [simpl; lia|].
    pose proof (log2_div10 n Hge) as Hlog.
    assert (Hq : (1 ≤ n / 10)%Z) by (apply Z.div_le_lower_bound; lia).
    destruct (IH (n / 10)%Z Hq) as [Hlo Hhi]; [lia|].
    pose proof (ilog10_go_nonneg fuel (n / 10)) as Hk.
    pose proof (Z.div_mod n 10 ltac:(lia)) as Hdm.
    pose proof (Z.mod_pos_bound n 10 ltac:(lia)) as Hm.
    replace (1 + ilog10_go fuel (n / 10) + 1)%Z
      with (Z.succ (ilog10_go fuel (n / 10) + 1)) by lia.
    replace (1 + ilog10_go fuel (n / 10))%Z
      with (Z.succ (ilog10_go fuel (n / 10))) by lia.
    rewrite !Z.pow_succ_r by lia. lia.
Qed.

Lemma int_log10_spec (n : Z) :
  (1 ≤ n)%Z →
  ∃ k : Z, int_log10 n = Ok k ∧ (0 ≤ k)%Z ∧ (10 ^ k ≤ n < 10 ^ (k + 1))%Z.
Proof.
  intros Hn. unfold int_log10.
  destruct (Z.leb_spec n 0) as [?|_]; [lia|].
  eexists; split; [done|]. split; [apply ilog10_go_nonneg|].
  apply ilog10_go_spec; [done|]. pose proof (Z.log2_nonneg n). lia.
Qed.



(** ** Loops *)

(** A loop whose body never raises while an invariant holds does not raise,
    and the invariant holds at the end.  The invariant may mention the
    elements already visited. *)
Lemma foldM_invariant {A S : Type} (f : S → A → result S)
    (P : list A → S → Prop) (l : list A) (s : S) :
  P [] s →
  (∀ visited x s, P visited s → x ∈ l → ∃ s', f s x = Ok s' ∧ P (visited ++ [x]) s') →
  ∃ s', foldM f s l = Ok s' ∧ P l s'.
Proof.
  intros H0 Hstep.
  assert (G : ∀ rest visited s, l = visited ++ rest → P visited s →
              ∃ s', foldM f s rest = Ok s' ∧ P l s').
  { induction rest as [|x rest IH]; intros visited s0 -> HP; simpl.
    - exists s0. by rewrite app_nil_r.
    - destruct (Hstep visited x s0 HP) as (s1 & -> & HP1); [set_solver|].
      simpl. apply (IH (visited ++ [x])); [by rewrite <- app_assoc | done]. }
  by apply (G l []).
Qed.

Lemma foldl_invariant {A S : Type} (f : S → A → S)
    (P : list A → S → Prop) (l : list A) (s : S) :
  P [] s →
  (∀ visited x s, P visited s → P (visited ++ [x]) (f s x)) →
  P l (foldl f s l).
Proof.
  intros H0 Hstep.
  assert (G : ∀ rest visited s, l = visited ++ rest → P visited s →
              P l (foldl f s rest)).
  { induction rest as [|x rest IH]; intros visited s0 -> HP; simpl.
    - by rewrite app_nil_r.
    - apply (IH (visited ++ [x])); [by rewrite <- app_assoc | by apply Hstep]. }
  by apply (G l []).
Qed.

(** ** The accumulators of [get_line] *)

Lemma with_text_snoc (text : string) (tuples : list diff_tuple) (t : diff_tuple) :
  with_text text (tuples ++ [t])
  = with_text text tuples ++ (if decide (tuple_line t = text) then [t] else []).
Proof.
  unfold with_text. by rewrite filter_app.
Qed.

Lemma nonempty_true (s : string) : nonempty s = true ↔ s ≠ "".
Proof. by destruct s. Qed.

Lemma merge_squigly_length (s1 s2 merged : string) :
  merge_squigly s1 s2 = Ok merged →
  String.length merged = String.length s1 `max` String.length s2.
Proof.
  rewrite merge_squigly_total. intros [= <-].
  rewrite length_string_of_list, length_overwrite_columns, length_list_ascii.
  unfold merge_base.
  destruct (String.length s2 <? String.length s1)%nat eqn:E;
    [apply Nat.ltb_lt in E | apply Nat.ltb_ge in E]; lia.
Qed.

Lemma merge_squigly_nonempty (s1 s2 merged : string) :
  s1 ≠ "" → merge_squigly s1 s2 = Ok merged → merged ≠ "".
Proof.
  intros Hs1 Hm. apply merge_squigly_length in Hm.
  intros ->. destruct s1; [done|]. simpl in Hm. lia.
Qed.

Lemma with_text_nil (text : string) (tuples : list diff_tuple) :
  text ∉ tuple_line <$> tuples → with_text text tuples = [].
Proof.
  intros Hn. unfold with_text. induction tuples as [|t tuples IH]; [done|].
  rewrite fmap_cons, not_elem_of_cons in Hn. destruct Hn as [Hne Hn].
  rewrite filter_cons, decide_False by done. by apply IH.
Qed.

Lemma collect_step_inv (visited : list diff_tuple) (st : collected) (t : diff_tuple) :
  collected_inv visited st →
  ∃ st', collect_step st t = Ok st' ∧ collected_inv (visited ++ [t]) st'.
Proof.
  intros (Hl & Hc & Hs). destruct t as [[diff_line meta] squigly_line].
  unfold collect_step.
  assert (Hsq : ∃ sq', (if nonempty squigly_line then
       squigly_line' ←
         match squiglies st !! diff_line with
         | Some previous => merge_squigly squigly_line previous
         | None => Ok squigly_line
         end;
       Ok (<[diff_line := squigly_line']> (squiglies st))
     else Ok (squiglies st)) = Ok sq' ∧
     ∀ text squigly, sq' !! text = Some squigly →
        squigly ≠ "" ∧ (text = diff_line ∨ text ∈ lines st)).
  { destruct (nonempty squigly_line) eqn:Hne.
    - apply nonempty_true in Hne.
      destruct (squiglies st !! diff_line) as [previous|] eqn:Hprev.
      + rewrite merge_squigly_total. simpl. eexists; split; [done|].
        intros text squigly. rewrite lookup_insert. case_decide.
        * intros [= <-]. split; [|by left].
          eapply merge_squigly_nonempty; [exact Hne | apply merge_squigly_total].
        * intros H'. apply Hs in H'. naive_solver.
      + simpl. eexists; split; [done|].
        intros text squigly. rewrite lookup_insert. case_decide.
        * intros [= <-]. by split; [|left].
        * intros H'. apply Hs in H'. naive_solver.
    - eexists; split; [done|]. intros text squigly H'. apply Hs in H'. naive_solver. }
  destruct Hsq as (sq' & -> & Hsq'). simpl.
  eexists; split; [done|]. split; [|split]; simpl.
  - rewrite fmap_app, list_to_set_app_L, Hl. simpl. set_solver.
  - intros text. rewrite lookup_insert. unfold group_files.
    rewrite with_text_snoc. simpl. rewrite Hc.
    destruct (decide (diff_line = text)) as [->|Hne].
    + rewrite (decide_True (P := text ∈ {[text]} ∪ lines st))
        by (apply elem_of_union; left; by apply elem_of_singleton).
      rewrite (decide_True (P := tuple_line (text, meta, squigly_line) = text)) by done.
      f_equal. rewrite fmap_app, list_to_set_app_L. simpl.
      destruct (decide (text ∈ lines st)) as [Hin|Hnin]; simpl.
      * unfold group_files.
        generalize (list_to_set (C := gset string) (tuple_meta <$> with_text text visited)).
        intros X. set_solver.
      * rewrite with_text_nil; [set_solver|].
        rewrite Hl in Hnin. by rewrite elem_of_list_to_set in Hnin.
    + rewrite (decide_False (P := tuple_line (diff_line, meta, squigly_line) = text)) by done.
      rewrite app_nil_r.
      destruct (decide (text ∈ lines st)).
      * rewrite Hc. rewrite (decide_True (P := text ∈ lines st)) by done.
        rewrite (decide_True (P := text ∈ {[diff_line]} ∪ lines st)); [done|].
        apply elem_of_union. by right.
      * rewrite Hc. rewrite (decide_False (P := text ∈ lines st)) by done.
        rewrite (decide_False (P := text ∈ {[diff_line]} ∪ lines st)); [done|].
        rewrite elem_of_union, elem_of_singleton. naive_solver.
  - intros text squigly H'. apply Hsq' in H'. clear -H'. set_solver.
Qed.

Lemma collect_inv (diff_dict : gmap ascii (list diff_tuple)) (key : ascii) :
  ∃ st, collect diff_dict key = Ok st
        ∧ collected_inv (default [] (diff_dict !! key)) st.
Proof.
  unfold collect. destruct (diff_dict !! key) as [tuples|]; simpl.
  - apply foldM_invariant.
    + split; [done|]. split; [|done]. intros text. by rewrite decide_False by set_solver.
    + intros visited x s HP _. by apply collect_step_inv.
  - eexists; split; [done|]. split; [done|]. split; [|done].
    intros text. by rewrite decide_False by set_solver.
Qed.

(** ** Sorting and truncating the variants *)

Lemma insert_by_key_perm {A : Type} (x : A * nat) (l : list (A * nat)) :
  insert_by_key x l ≡ₚ x :: l.
Proof.
  induction l as [|y l IH]; simpl; [done|].
  destruct (x.2 <=? y.2)%nat; [done|].
  rewrite IH. apply Permutation_swap.
Qed.

Lemma sorted_by_key_perm {A : Type} (l : list (A * nat)) : sorted_by_key l ≡ₚ l.
Proof.
  induction l as [|x l IH]; simpl; [done|].
  unfold sorted_by_key in *. simpl. by rewrite insert_by_key_perm, IH.
Qed.

Lemma insert_by_key_sorted {A : Type} (x : A * nat) (l : list (A * nat)) :
  StronglySorted key_le l → StronglySorted key_le (insert_by_key x l).
Proof.
  induction 1 as [|y l Hs IH Hy]; simpl.
  - repeat constructor.
  - destruct (Nat.leb_spec x.2 y.2) as [Hle|Hgt].
    + constructor; [by constructor|].
      constructor; [done|].
      eapply Forall_impl; [exact Hy|]. unfold key_le. intros; lia.
    + constructor; [done|].
      rewrite insert_by_key_perm. constructor; [unfold key_le; lia | done].
Qed.

Lemma sorted_by_key_sorted {A : Type} (l : list (A * nat)) :
  StronglySorted key_le (sorted_by_key l).
Proof.
  induction l as [|x l IH]; [constructor|].
  by apply insert_by_key_sorted.
Qed.

Lemma mapM_ok {A B : Type} (f : A → result B) (g : A → B) (l : list A) :
  (∀ x, x ∈ l → f x = Ok (g x)) → mapM f l = Ok (g <$> l).
Proof.
  induction l as [|x l IH]; intros Hf; simpl; [done|].
  rewrite Hf by set_solver. simpl. rewrite IH by set_solver. done.
Qed.

Lemma size_list_to_set_dups (l : list string) :
  size (list_to_set (C := gset string) l) = length (remove_dups l).
Proof.
  rewrite <- (size_list_to_set (C := gset string) (remove_dups l))
    by apply NoDup_remove_dups.
  f_equal. apply set_eq. intros x.
  by rewrite !elem_of_list_to_set, elem_of_remove_dups.
Qed.

Lemma keyed_lines_ok (tuples : list diff_tuple) (st : collected) :
  collected_inv tuples st →
  keyed_lines st
  = Ok ((λ text, (text, size (group_files tuples text))) <$> elements (lines st)).
Proof.
  intros (Hl & Hc & Hs). unfold keyed_lines. apply mapM_ok.
  intros text Hin. apply elem_of_elements in Hin.
  unfold dict_get. rewrite Hc. by rewrite decide_True.
Qed.

Lemma get_line_key_unfold (self : MultiDiff) (line_no : Z)
    (diff_dict : gmap ascii (list diff_tuple)) (output : list string) (key : ascii)
    (st : collected) (shown : list (string * nat)) :
  collect diff_dict key = Ok st → shown_lines st = Ok shown →
  get_line_key self line_no diff_dict output key
  = render_shown self line_no st output (shown.*1).
Proof.
  intros H1 H2. unfold get_line_key. rewrite H1. simpl. by rewrite H2.
Qed.

(** X1. What [get_line] shows for one bucket ([diff_dict]) and one kind
    ([key]).  The accumulation loop never raises; the variants handed to the
    rendering loop, in the order they are rendered, are distinct texts of the
    bucket, each paired with the number of distinct files that carry it;
    these numbers never decrease along the list; the list has [min 3 n]
    entries, where [n] is the number of distinct texts of the bucket; and no
    variant that is left out is carried by fewer files than one that is
    shown. *)
Theorem shown_lines_policy (diff_dict : gmap ascii (list diff_tuple)) (key : ascii) :
  let tuples := default [] (diff_dict !! key) in
  let file_count text := size (group_files tuples text) in
  let is_variant text := ∃ t, t ∈ tuples ∧ tuple_line t = text in
  ∃ st shown,
    collect diff_dict key = Ok st ∧
    shown_lines st = Ok shown ∧
    (∀ self line_no output,
       get_line_key self line_no diff_dict output key
       = render_shown self line_no st output (shown.*1)) ∧
    NoDup (shown.*1) ∧
    (∀ text c, (text, c) ∈ shown → is_variant text ∧ c = file_count text) ∧
    StronglySorted le (shown.*2) ∧
    length shown = MAX_DIFF_GROUPS `min` length (remove_dups (tuple_line <$> tuples)) ∧
    (∀ text text', text ∈ shown.*1 → is_variant text' → text' ∉ shown.*1 →
                   file_count text ≤ file_count text').
Proof.
  intros tuples file_count is_variant.
  destruct (collect_inv diff_dict key) as (st & Hcol & Hinv).
  fold tuples in Hinv.
  pose proof (keyed_lines_ok tuples st Hinv) as Hkeyed.
  destruct Hinv as (Hl & Hc & Hs).
  set (keyed := (λ text, (text, size (group_files tuples text))) <$> elements (lines st))
    in Hkeyed.
  set (sorted := sorted_by_key keyed).
  assert (Hshown : shown_lines st = Ok (take MAX_DIFF_GROUPS sorted)).
  { unfold shown_lines. by rewrite Hkeyed. }
  assert (Hperm : sorted ≡ₚ keyed) by apply sorted_by_key_perm.
  assert (Hsorted : StronglySorted key_le
                      (take MAX_DIFF_GROUPS sorted ++ drop MAX_DIFF_GROUPS sorted)).
  { rewrite take_drop. apply sorted_by_key_sorted. }
  assert (Hvar : ∀ text, text ∈ lines st ↔ is_variant text).
  { intros text. rewrite Hl, elem_of_list_to_set, list_elem_of_fmap.
    unfold is_variant. naive_solver. }
  assert (Hkeyed_in : ∀ text c, (text, c) ∈ keyed ↔ text ∈ lines st ∧ c = file_count text).
  { intros text c. unfold keyed. rewrite list_elem_of_fmap.
    setoid_rewrite elem_of_elements. unfold file_count. naive_solver. }
  assert (Hfst : keyed.*1 = elements (lines st)).
  { unfold keyed. rewrite <- list_fmap_compose. apply list_fmap_id. }
  assert (Hnodup : NoDup (sorted.*1)).
  { rewrite Hperm, Hfst. apply NoDup_elements. }
  assert (Htake : ∀ x, x ∈ take MAX_DIFF_GROUPS sorted → x ∈ keyed).
  { intros x Hx. rewrite <- Hperm, <- (take_drop MAX_DIFF_GROUPS sorted).
    apply elem_of_app. by left. }
  exists st, (take MAX_DIFF_GROUPS sorted).
  split; [done|]. split; [done|]. split.
  { intros. by apply get_line_key_unfold. }
  split.
  { rewrite <- (take_drop MAX_DIFF_GROUPS sorted), fmap_app in Hnodup.
    by apply NoDup_app in Hnodup as (? & _). }
  split.
  { intros text c Hin. apply Htake, Hkeyed_in in Hin as [Hin ->].
    split; [by apply Hvar | done]. }
  split.
  { apply (StronglySorted_fmap snd key_le le); [done|].
    by apply StronglySorted_app_1_l in Hsorted. }
  split.
  { rewrite length_take. f_equal.
    rewrite Hperm. unfold keyed. rewrite length_fmap.
    change (length (elements (lines st))) with (size (lines st)).
    rewrite Hl. apply size_list_to_set_dups. }
  intros text text' Hin Hvar' Hnin.
  apply list_elem_of_fmap in Hin as ([text0 c] & -> & Hin). simpl.
  pose proof Hin as Hin'. apply Htake, Hkeyed_in in Hin' as [_ ->].
  assert (Hin2 : (text', file_count text') ∈ sorted).
  { rewrite Hperm. apply Hkeyed_in. split; [by apply Hvar | done]. }
  rewrite <- (take_drop MAX_DIFF_GROUPS sorted) in Hin2.
  apply elem_of_app in Hin2 as [Hin2|Hin2].
  - exfalso. apply Hnin. apply list_elem_of_fmap. by exists (text', file_count text').
  - apply (StronglySorted_app_1_elem_of _ _ _ _ _ Hsorted Hin Hin2).
Qed.

(** ** The loop of [multidiff] over the differ's output *)

Lemma enumerate_from_snoc {A : Type} (i : nat) (l : list A) (x : A) :
  enumerate_from i (l ++ [x]) = enumerate_from i l ++ [(i + length l, x)].
Proof.
  revert i; induction l as [|y l IH]; intros i; simpl.
  - by rewrite Nat.add_0_r.
  - by rewrite IH, Nat.add_succ_r.
Qed.

Lemma elem_of_enumerate_from {A : Type} (n : nat) (l : list A) (i : nat) (x : A) :
  (i, x) ∈ enumerate_from n l ↔ n ≤ i ∧ l !! (i - n) = Some x.
Proof.
  revert n; induction l as [|y l IH]; intros n; simpl.
  - rewrite elem_of_nil. naive_solver.
  - rewrite elem_of_cons, IH. split.
    + intros [[= -> ->]|[Hle Hl]].
      * by rewrite Nat.sub_diag.
      * split; [lia|]. by replace (i - n) with (S (i - S n)) by lia.
    + intros [Hle Hl]. destruct (decide (i = n)) as [->|Hne].
      * left. rewrite Nat.sub_diag in Hl. by injection Hl as ->.
      * right. split; [lia|]. by replace (i - n) with (S (i - S n)) in Hl by lia.
Qed.

Lemma elem_of_enumerate {A : Type} (l : list A) (i : nat) (x : A) :
  (i, x) ∈ enumerate l ↔ l !! i = Some x.
Proof.
  unfold enumerate. rewrite elem_of_enumerate_from, Nat.sub_0_r. naive_solver lia.
Qed.

Lemma filter_ext_in {A : Type} (P Q : A → Prop)
    `{∀ x, Decision (P x)} `{∀ x, Decision (Q x)} (l : list A) :
  (∀ x, x ∈ l → (P x ↔ Q x)) → filter P l = filter Q l.
Proof.
  induction l as [|a l IH]; intros Hx; [done|].
  rewrite !filter_cons.
  assert (Ha : P a ↔ Q a) by (apply Hx; by left).
  rewrite IH by (intros; apply Hx; by right).
  destruct (decide (P a)), (decide (Q a)); naive_solver.
Qed.

Lemma normalize_snoc (filename : string) (diff : list string) (x : string) :
  normalize filename (diff ++ [x])
  = norm_step filename (normalize filename diff) (length diff, x).
Proof.
  unfold normalize, enumerate. by rewrite enumerate_from_snoc, foldl_snoc.
Qed.

Lemma anchor_snoc_le (diff : list string) (x : string) (i : nat) :
  i ≤ length diff → anchor (diff ++ [x]) i = anchor diff i.
Proof. intros Hi. unfold anchor. by rewrite take_app_le. Qed.

Lemma anchor_end_snoc (diff : list string) (x : string) :
  anchor (diff ++ [x]) (length (diff ++ [x]))
  = (anchor diff (length diff) + if advances x then 1 else 0)%Z.
Proof.
  unfold anchor. rewrite !firstn_all, filter_app, length_app.
  rewrite filter_cons, filter_nil.
  destruct (advances x); simpl; lia.
Qed.

Lemma last_change_snoc (diff : list string) (x : string) :
  last_change (diff ++ [x]) = if is_change x then Some x else last_change diff.
Proof.
  unfold last_change. rewrite filter_app, filter_cons, filter_nil.
  destruct (is_change x); simpl.
  - by rewrite last_snoc.
  - by rewrite app_nil_r.
Qed.

Lemma registered_at_snoc (filename : string) (diff : list string) (x : string) (k : Z) :
  registered_at filename (diff ++ [x]) k
  = registered_at filename diff k
    ++ (if decide (is_change x = true ∧ anchor diff (length diff) = k)
        then [(x, filename)] else []).
Proof.
  unfold registered_at, enumerate.
  rewrite enumerate_from_snoc, filter_app, fmap_app. f_equal.
  - f_equal. apply filter_ext_in. intros [i line] Hin.
    apply elem_of_enumerate in Hin. apply lookup_lt_Some in Hin. simpl.
    by rewrite anchor_snoc_le by lia.
  - rewrite filter_cons, filter_nil. simpl.
    rewrite anchor_snoc_le by lia.
    by destruct (decide (is_change x = true ∧ anchor diff (length diff) = k)).
Qed.

Lemma squigly_for_snoc (diff : list string) (x : string) (key : option string) :
  squigly_for (diff ++ [x]) key
  = if decide (startswith x QUESTIONMARK = true ∧ last_change diff = key)
    then Some x else squigly_for diff key.
Proof.
  unfold squigly_for, enumerate.
  rewrite enumerate_from_snoc, filter_app, fmap_app.
  rewrite (filter_ext_in _
     (λ il : nat * string,
        startswith il.2 QUESTIONMARK = true ∧ last_change (take il.1 diff) = key)
     (enumerate_from 0 diff)).
  2:{ intros [i line] Hin.
      apply elem_of_enumerate in Hin. apply lookup_lt_Some in Hin. simpl.
      by rewrite take_app_le by lia. }
  rewrite filter_cons, filter_nil. simpl. rewrite take_app_length.
  destruct (decide (startswith x QUESTIONMARK = true ∧ last_change diff = key)); simpl.
  - by rewrite last_snoc.
  - by rewrite app_nil_r.
Qed.

Lemma startswith_inj (s : string) (c c' : ascii) :
  startswith s c = true → startswith s c' = true → c = c'.
Proof.
  destruct s as [|a s]; simpl; [done|].
  intros H1%bool_decide_eq_true H2%bool_decide_eq_true. congruence.
Qed.

Lemma match_snoc_Some {A : Type} (l : list A) (x : A) :
  match l ++ [x] with [] => None | _ :: _ => Some (l ++ [x]) end = Some (l ++ [x]).
Proof. by destruct l. Qed.

Lemma default_match_nil {A : Type} (l : list A) :
  default [] (match l with [] => None | _ :: _ => Some l end) = l.
Proof. by destruct l. Qed.

(** What the loop over the differ's output leaves in its four variables. *)
Lemma normalize_inv (filename : string) (diff : list string) :
  let st := normalize filename diff in
  (∀ k, local_diff st !! k =
          match registered_at filename diff k with
          | [] => None
          | _ :: _ => Some (registered_at filename diff k)
          end) ∧
  (∀ key, squigly_dict st !! key = squigly_for diff key) ∧
  last_added st = last_change diff ∧
  (Z.of_nat (length diff) + offset st)%Z = anchor diff (length diff).
Proof.
  induction diff as [|x diff IH] using rev_ind; [done|].
  destruct IH as (Hld & Hsd & Hla & Hoff).
  cbv zeta. rewrite normalize_snoc. unfold norm_step.
  set (st := normalize filename diff) in *.
  rewrite anchor_end_snoc, length_app, last_change_snoc. simpl length.
  destruct (startswith x QUESTIONMARK) eqn:Hq;
    [|destruct (startswith x PLUS) eqn:Hp; [|destruct (startswith x MINUS) eqn:Hm]].
  - assert (Hic : is_change x = false).
    { unfold is_change.
      destruct (startswith x PLUS) eqn:Hp;
        [by pose proof (startswith_inj _ _ _ Hq Hp)|].
      destruct (startswith x MINUS) eqn:Hm;
        [by pose proof (startswith_inj _ _ _ Hq Hm)|done]. }
    assert (Hadv : advances x = false) by (unfold advances; by rewrite Hq).
    rewrite Hic, Hadv. simpl. split; [|split; [|split]].
    + intros k. rewrite registered_at_snoc, Hic.
      rewrite decide_False by naive_solver. rewrite app_nil_r. apply Hld.
    + intros key. rewrite squigly_for_snoc, Hq, lookup_insert, Hla.
      destruct (decide (last_change diff = key)).
      * by rewrite decide_True.
      * rewrite decide_False by naive_solver. apply Hsd.
    + done.
    + lia.
  - assert (Hic : is_change x = true) by (unfold is_change; by rewrite Hp).
    assert (Hadv : advances x = true).
    { unfold advances. rewrite Hq.
      destruct (startswith x MINUS) eqn:Hm;
        [by pose proof (startswith_inj _ _ _ Hp Hm)|done]. }
    rewrite Hic, Hadv. simpl. split; [|split; [|split]].
    + intros k. rewrite registered_at_snoc, Hic.
      unfold setdefault_append. rewrite lookup_insert, Hoff.
      destruct (decide (anchor diff (length diff) = k)) as [<-|Hne].
      * rewrite decide_True by done.
        by rewrite Hld, default_match_nil, match_snoc_Some.
      * rewrite decide_False by naive_solver. rewrite app_nil_r. apply Hld.
    + intros key. rewrite squigly_for_snoc, Hq.
      rewrite decide_False by naive_solver. apply Hsd.
    + done.
    + lia.
  - assert (Hic : is_change x = true) by (unfold is_change; by rewrite Hp, Hm).
    assert (Hadv : advances x = false) by (unfold advances; by rewrite Hq, Hm).
    rewrite Hic, Hadv. simpl. split; [|split; [|split]].
    + intros k. rewrite registered_at_snoc, Hic.
      unfold setdefault_append. rewrite lookup_insert, Hoff.
      destruct (decide (anchor diff (length diff) = k)) as [<-|Hne].
      * rewrite decide_True by done.
        by rewrite Hld, default_match_nil, match_snoc_Some.
      * rewrite decide_False by naive_solver. rewrite app_nil_r. apply Hld.
    + intros key. rewrite squigly_for_snoc, Hq.
      rewrite decide_False by naive_solver. apply Hsd.
    + done.
    + lia.
  - assert (Hic : is_change x = false) by (unfold is_change; by rewrite Hp, Hm).
    assert (Hadv : advances x = true) by (unfold advances; by rewrite Hq, Hm).
    rewrite Hic, Hadv. split; [|split; [|split]].
    + intros k. rewrite registered_at_snoc, Hic.
      rewrite decide_False by naive_solver. rewrite app_nil_r. apply Hld.
    + intros key. rewrite squigly_for_snoc, Hq.
      rewrite decide_False by naive_solver. apply Hsd.
    + done.
    + lia.
Qed.

(** X2. What the loop of [multidiff] over the differ's output registers.
    [local_diff] holds under [k] exactly the change lines (those that start
    with [+] or [-]) anchored at [k], paired with the file name, in the
    order of the output, and it has no entry for a [k] at which no change is
    anchored; the anchor of a change is one more than the number of lines
    before it that start with neither [?] nor [-].  [squigly_dict] holds,
    for each text, the last squigly line whose nearest preceding change line
    has that text. *)
Theorem normalize_registers (filename : string) (diff : list string) :
  let st := normalize filename diff in
  (∀ k, default [] (local_diff st !! k) = registered_at filename diff k) ∧
  (∀ k, local_diff st !! k ≠ Some []) ∧
  (∀ key, squigly_dict st !! key = squigly_for diff key).
Proof.
  destruct (normalize_inv filename diff) as (Hld & Hsd & _ & _).
  split; [|split; [|done]]; intros k; rewrite Hld.
  - apply default_match_nil.
  - by destruct (registered_at filename diff k).
Qed.

(** ** [parse_line] *)

(** X3. [parse_line] raises [IndexError] on an empty diff line.  On a diff
    line whose first character is neither [-] nor [+] it reports to the
    logger, so it raises exactly when the logger does.  Otherwise it returns,
    the tuple [(diff_line, meta, squigly_line)] is appended to the tuples
    registered for [line_no] under the first character of the diff line, the
    tuples of every other line number and key are as before, and so are the
    other fields of the object. *)
Theorem parse_line_spec (log_error_raises : bool) (self : MultiDiff) (line_no : Z)
    (diff_line meta squigly_line : string) :
  match diff_line with
  | EmptyString =>
      parse_line log_error_raises self line_no diff_line meta squigly_line
      = Raise IndexError
  | String key _ =>
      if bool_decide (key ≠ MINUS ∧ key ≠ PLUS) && log_error_raises then
        parse_line log_error_raises self line_no diff_line meta squigly_line
        = Raise (EasyBuildError
                   ("diff line starts with unexpected character: " +:+ diff_line))
      else
        ∃ self',
          parse_line log_error_raises self line_no diff_line meta squigly_line = Ok self' ∧
          base_fn self' = base_fn self ∧ base_lines self' = base_lines self ∧
          files self' = files self ∧ colored self' = colored self ∧
          ∀ n k, tuples_at self' n k
                 = tuples_at self n k
                   ++ if decide (n = line_no ∧ k = key)
                      then [(diff_line, meta, squigly_line)] else []
  end.
Proof.
  destruct diff_line as [|key rest]; [done|].
  unfold parse_line, log_error. simpl.
  assert (Hkey : bool_decide (key ∈ [MINUS; PLUS])
                 = negb (bool_decide (key ≠ MINUS ∧ key ≠ PLUS))).
  { repeat case_bool_decide; simpl; try done; exfalso; set_solver. }
  rewrite Hkey, negb_involutive.
  destruct (bool_decide (key ≠ MINUS ∧ key ≠ PLUS)), log_error_raises; simpl; try done.
  all: eexists; split; [done|]; repeat (split; [done|]).
  all: intros n k; unfold tuples_at; simpl; rewrite lookup_insert.
  all: destruct (decide (line_no = n)) as [->|Hn]; simpl.
  all: try (rewrite decide_False by naive_solver; by rewrite app_nil_r).
  all: rewrite lookup_insert; destruct (decide (key = k)) as [->|Hk]; simpl.
  all: try (by rewrite decide_True by done).
  all: rewrite decide_False by naive_solver; by rewrite app_nil_r.
Qed.

(** ** The registration loop of [multidiff] *)

Lemma same_setup_refl (a : MultiDiff) : same_setup a a.
Proof. by repeat split. Qed.

Lemma same_setup_trans (a b c : MultiDiff) :
  same_setup a b → same_setup b c → same_setup a c.
Proof. unfold same_setup. intros (?&?&?&?) (?&?&?&?). repeat split; congruence. Qed.

Lemma is_change_first (line : string) :
  is_change line = true →
  ∃ key rest, line = String key rest ∧ (key = MINUS ∨ key = PLUS).
Proof.
  destruct line as [|key rest]; [done|]. unfold is_change. simpl.
  intros [H%bool_decide_eq_true|H%bool_decide_eq_true]%orb_true_iff; eauto.
Qed.

Lemma rstrip_first (key : ascii) (rest : string) :
  Ascii.is_space key = false → ∃ rest', rstrip (String key rest) = String key rest'.
Proof.
  intros Hsp. simpl. rewrite Hsp. destruct (rstrip rest); eauto.
Qed.

Lemma parse_line_change (log_error_raises : bool) (self : MultiDiff) (line_no : Z)
    (key : ascii) (rest meta squigly_line : string) :
  key = MINUS ∨ key = PLUS →
  ∃ self',
    parse_line log_error_raises self line_no (String key rest) meta squigly_line = Ok self' ∧
    same_setup self' self ∧
    ∀ n k, tuples_at self' n k
           = tuples_at self n k
             ++ if decide (n = line_no ∧ k = key)
                then [(String key rest, meta, squigly_line)] else [].
Proof.
  intros Hkey. unfold parse_line. simpl.
  rewrite bool_decide_true by set_solver. simpl.
  eexists; split; [done|]. split; [by repeat split|].
  intros n k; unfold tuples_at; simpl; rewrite lookup_insert.
  destruct (decide (line_no = n)) as [->|Hn]; simpl.
  - rewrite lookup_insert; destruct (decide (key = k)) as [->|Hk]; simpl.
    + by rewrite decide_True by done.
    + rewrite decide_False by naive_solver; by rewrite app_nil_r.
  - rewrite decide_False by naive_solver; by rewrite app_nil_r.
Qed.

Lemma register_line_ok (log_error_raises : bool) (st : norm_state) (line_no : Z)
    (mdiff : MultiDiff) (lf : string * string) :
  is_change lf.1 = true →
  ∃ mdiff',
    register_line log_error_raises st line_no mdiff lf = Ok mdiff' ∧
    same_setup mdiff' mdiff ∧
    ∀ n k, tuples_at mdiff' n k
           = tuples_at mdiff n k
             ++ if decide (n = line_no)
                then entries_under (λ key, squigly_dict st !! key) k [lf] else [].
Proof.
  destruct lf as [line filename]. simpl. intros Hc.
  destruct (is_change_first _ Hc) as (key & rest & -> & Hkey).
  destruct (rstrip_first key rest) as (rest' & Hr); [by destruct Hkey as [->| ->]|].
  unfold register_line. cbv beta iota. rewrite Hr.
  destruct (parse_line_change log_error_raises mdiff line_no key rest' filename
              (rstrip (default "" (squigly_dict st !! Some (String key rest)))) Hkey)
    as (mdiff' & -> & Hsame & Ht).
  exists mdiff'. split; [done|]. split; [done|].
  intros n k. rewrite Ht. f_equal.
  unfold entries_under, entry_tuple. rewrite filter_cons, filter_nil. simpl.
  destruct (decide (n = line_no)) as [->|Hn].
  - destruct (decide (k = key)) as [->|Hk].
    + rewrite decide_True by done. rewrite decide_True by by apply bool_decide_eq_true.
      by rewrite <- Hr.
    + rewrite decide_False by naive_solver.
      rewrite decide_False; [done|].
      intros H%bool_decide_eq_true. congruence.
  - by rewrite decide_False by naive_solver.
Qed.

Lemma entries_under_app (squigly : option string → option string) (key : ascii)
    (l1 l2 : list (string * string)) :
  entries_under squigly key (l1 ++ l2)
  = entries_under squigly key l1 ++ entries_under squigly key l2.
Proof. unfold entries_under. by rewrite filter_app, fmap_app. Qed.

Lemma register_entries_ok (log_error_raises : bool) (st : norm_state) (line_no : Z)
    (entries : list (string * string)) (mdiff : MultiDiff) :
  Forall (λ lf, is_change lf.1 = true) entries →
  ∃ mdiff',
    foldM (register_line log_error_raises st line_no) mdiff entries = Ok mdiff' ∧
    same_setup mdiff' mdiff ∧
    ∀ n k, tuples_at mdiff' n k
           = tuples_at mdiff n k
             ++ if decide (n = line_no)
                then entries_under (λ key, squigly_dict st !! key) k entries else [].
Proof.
  intros Hall. revert mdiff.
  induction Hall as [|lf entries Hlf Hall IH]; intros mdiff; simpl.
  - exists mdiff. split; [done|]. split; [apply same_setup_refl|].
    intros n k. destruct (decide (n = line_no)); by rewrite app_nil_r.
  - destruct (register_line_ok log_error_raises st line_no mdiff lf Hlf)
      as (mdiff1 & -> & Hs1 & Ht1). simpl.
    destruct (IH mdiff1) as (mdiff2 & -> & Hs2 & Ht2).
    exists mdiff2. split; [done|]. split; [by eapply same_setup_trans|].
    intros n k. rewrite Ht2, Ht1, <- app_assoc. f_equal.
    destruct (decide (n = line_no)); [|done].
    by rewrite (entries_under_app _ _ [lf] entries).
Qed.

Lemma register_list_ok (log_error_raises : bool) (st : norm_state)
    (l : list (Z * list (string * string))) (mdiff : MultiDiff) :
  NoDup (l.*1) →
  Forall (λ p, Forall (λ lf : string * string, is_change lf.1 = true) p.2) l →
  ∃ mdiff',
    foldM (λ mdiff '(line_no, entries),
             foldM (register_line log_error_raises st line_no) mdiff entries)
          mdiff l = Ok mdiff' ∧
    same_setup mdiff' mdiff ∧
    ∀ n k, tuples_at mdiff' n k
           = tuples_at mdiff n k
             ++ entries_under (λ key, squigly_dict st !! key) k
                  (default [] ((list_to_map l : gmap Z _) !! n)).
Proof.
  intros Hnd Hall. revert mdiff.
  induction Hall as [|[n0 e0] l He0 Hall IH]; intros mdiff.
  - exists mdiff. split; [done|]. split; [apply same_setup_refl|].
    intros n k. simpl. rewrite lookup_empty. simpl. by rewrite app_nil_r.
  - apply NoDup_cons in Hnd as [Hn0 Hnd]. simpl in He0.
    destruct (register_entries_ok log_error_raises st n0 e0 mdiff He0)
      as (mdiff1 & Hr1 & Hs1 & Ht1).
    destruct (IH Hnd mdiff1) as (mdiff2 & Hr2 & Hs2 & Ht2).
    exists mdiff2. split; [|split; [by eapply same_setup_trans|]].
    + simpl. rewrite Hr1. simpl. exact Hr2.
    + intros n k. rewrite Ht2, Ht1, <- app_assoc. f_equal.
      simpl. rewrite lookup_insert.
      destruct (decide (n = n0)) as [->|Hne].
      * rewrite decide_True by done.
        rewrite (not_elem_of_list_to_map_1 l n0 Hn0). simpl.
        unfold entries_under at 2. simpl. by rewrite app_nil_r.
      * by rewrite decide_False by done.
Qed.

Lemma register_ok (log_error_raises : bool) (st : norm_state) (mdiff : MultiDiff) :
  (∀ n entries, local_diff st !! n = Some entries →
                Forall (λ lf : string * string, is_change lf.1 = true) entries) →
  ∃ mdiff',
    register log_error_raises st mdiff = Ok mdiff' ∧
    same_setup mdiff' mdiff ∧
    ∀ n k, tuples_at mdiff' n k
           = tuples_at mdiff n k
             ++ entries_under (λ key, squigly_dict st !! key) k
                  (default [] (local_diff st !! n)).
Proof.
  intros Hall.
  destruct (register_list_ok log_error_raises st (map_to_list (local_diff st)) mdiff)
    as (mdiff' & Hr & Hs & Ht).
  - apply NoDup_fst_map_to_list.
  - apply Forall_forall. intros [n entries] Hin%elem_of_map_to_list. by eapply Hall.
  - exists mdiff'. split; [done|]. split; [done|].
    intros n k. rewrite Ht. by rewrite list_to_map_to_list.
Qed.

Lemma registered_at_change (filename : string) (diff : list string) (k : Z) :
  Forall (λ lf : string * string, is_change lf.1 = true) (registered_at filename diff k).
Proof.
  unfold registered_at. apply Forall_fmap, Forall_forall.
  intros [i line] Hin%list_elem_of_filter. simpl in *. naive_solver.
Qed.

Lemma add_diff_ok (log_error_raises : bool) (mdiff : MultiDiff) (filename : string)
    (diff : list string) :
  ∃ mdiff',
    add_diff log_error_raises mdiff filename diff = Ok mdiff' ∧
    same_setup mdiff' mdiff ∧
    ∀ n k, tuples_at mdiff' n k = tuples_at mdiff n k ++ changes_under filename diff n k.
Proof.
  destruct (normalize_inv filename diff) as (Hld & Hsd & _ & _).
  destruct (register_ok log_error_raises (normalize filename diff) mdiff)
    as (mdiff' & Hr & Hs & Ht).
  - intros n entries. rewrite Hld.
    pose proof (registered_at_change filename diff n) as Hall.
    destruct (registered_at filename diff n); [done|]. by intros [= <-].
  - exists mdiff'. split; [done|]. split; [done|].
    intros n k. rewrite Ht, Hld, default_match_nil. f_equal.
    unfold changes_under, entries_under, entry_tuple.
    apply list_fmap_ext. intros i lf _. by rewrite Hsd.
Qed.

Lemma add_files_ok (log_error_raises : bool) (read_file : string → string)
    (differ_compare : list string → list string → list string)
    (base_lines filepaths : list string) (mdiff : MultiDiff) :
  ∃ mdiff',
    foldM (add_file log_error_raises read_file differ_compare base_lines) mdiff filepaths
    = Ok mdiff' ∧
    same_setup mdiff' mdiff ∧
    ∀ n k, tuples_at mdiff' n k
           = tuples_at mdiff n k
             ++ concat (file_changes read_file differ_compare base_lines n k <$> filepaths).
Proof.
  revert mdiff. induction filepaths as [|filepath filepaths IH]; intros mdiff.
  - exists mdiff. split; [done|]. split; [apply same_setup_refl|].
    intros n k. simpl. by rewrite app_nil_r.
  - cbn [foldM].
    destruct (add_diff_ok log_error_raises mdiff (basename filepath)
                (differ_compare (split_lines (read_file filepath)) base_lines))
      as (mdiff1 & Hr1 & Hs1 & Ht1).
    change (add_diff log_error_raises mdiff (basename filepath)
              (differ_compare (split_lines (read_file filepath)) base_lines))
      with (add_file log_error_raises read_file differ_compare base_lines mdiff filepath)
      in Hr1.
    rewrite Hr1. simpl.
    destruct (IH mdiff1) as (mdiff2 & -> & Hs2 & Ht2).
    exists mdiff2. split; [done|]. split; [by eapply same_setup_trans|].
    intros n k. by rewrite Ht2, Ht1, <- app_assoc.
Qed.

(** X4. The first phase of [multidiff], whatever the files hold and
    whatever the differ and the logger do: it returns an object with the base
    name of [base], the lines of [base], the file list and the color mode as
    given, and the tuples it has registered for line [n] under [key] are, file
    after file in the order of [files], the changes of that file's differ
    output anchored at [n] that start with [key]: each with its text
    right-stripped, the base name of the file, and the right-stripped squigly
    line found for its text (empty when there is none). *)
Theorem multidiff_object_registers (log_error_raises : bool)
    (read_file : string → string)
    (differ_compare : list string → list string → list string)
    (base : string) (filepaths : list string) (color : bool) :
  ∃ mdiff,
    multidiff_object log_error_raises read_file differ_compare base filepaths color
    = Ok mdiff ∧
    base_fn mdiff = basename base ∧
    base_lines mdiff = split_lines (read_file base) ∧
    files mdiff = filepaths ∧
    colored mdiff = color ∧
    ∀ n k, tuples_at mdiff n k
           = concat (file_changes read_file differ_compare
                                  (split_lines (read_file base)) n k <$> filepaths).
Proof.
  unfold multidiff_object.
  destruct (add_files_ok log_error_raises read_file differ_compare
              (split_lines (read_file base)) filepaths
              (MultiDiff_init (basename base) (split_lines (read_file base)) filepaths color))
    as (mdiff & Hr & (H1 & H2 & H3 & H4) & Ht).
  exists mdiff. split; [done|]. repeat (split; [done|]).
  intros n k. by rewrite Ht.
Qed.

(** ** [colorize] *)

Lemma append_cons (a : ascii) (s t : string) : String a s +:+ t = String a (s +:+ t).
Proof. done. Qed.

Lemma append_nil_l (t : string) : "" +:+ t = t.
Proof. done. Qed.

Lemma append_nil_r (s : string) : s +:+ "" = s.
Proof. induction s as [|a s IH]; [done|]. by rewrite append_cons, IH. Qed.

Lemma append_assoc (s t u : string) : (s +:+ t) +:+ u = s +:+ (t +:+ u).
Proof. induction s as [|a s IH]; [done|]. by rewrite !append_cons, IH. Qed.

Lemma join_empty_cons (x : string) (l : list string) :
  join "" (x :: l) = x +:+ join "" l.
Proof. destruct l; simpl; [by rewrite append_nil_r | done]. Qed.

Lemma join_empty_app (l k : list string) :
  join "" (l ++ k) = join "" l +:+ join "" k.
Proof.
  induction l as [|x l IH]; [done|].
  rewrite <- app_comm_cons, !join_empty_cons, IH. by rewrite append_assoc.
Qed.

Lemma strip_escapes_escape (e s : string) :
  is_escape e → strip_escapes_go false (e +:+ s) = strip_escapes_go false s.
Proof. by intros [->|[->|[->| ->]]]. Qed.

Lemma strip_escapes_plain (p s : string) :
  is_plain p → strip_escapes_go false (p +:+ s) = p +:+ strip_escapes_go false s.
Proof.
  intros (c & -> & Hc). rewrite !append_cons, !append_nil_l. simpl.
  by rewrite bool_decide_false by done.
Qed.

Lemma is_escape_length (e : string) : is_escape e → String.length e ≠ 1%nat.
Proof. by intros [->|[->|[->| ->]]]. Qed.

Lemma strip_escapes_join (chars : list string) :
  pieces_ok chars → strip_escapes (join "" chars) = plain_of chars.
Proof.
  unfold strip_escapes, plain_of.
  induction 1 as [|s chars [He|Hp] Hall IH].
  - done.
  - rewrite join_empty_cons, strip_escapes_escape by done.
    by rewrite filter_cons, decide_False by by apply is_escape_length.
  - rewrite join_empty_cons, strip_escapes_plain by done.
    destruct Hp as (c & -> & Hc).
    rewrite filter_cons, decide_True by done. by rewrite join_empty_cons, IH.
Qed.

Lemma pieces_ok_insert (p : nat) (e : string) (chars : list string) :
  is_escape e → pieces_ok chars → pieces_ok (py_insert p e chars).
Proof.
  intros He Hall. unfold pieces_ok, py_insert.
  apply Forall_app. split; [by apply Forall_take|].
  constructor; [by left | by apply Forall_drop].
Qed.

Lemma plain_of_insert (p : nat) (e : string) (chars : list string) :
  is_escape e → plain_of (py_insert p e chars) = plain_of chars.
Proof.
  intros He. unfold plain_of, py_insert.
  rewrite filter_app, filter_cons, decide_False by by apply is_escape_length.
  by rewrite <- filter_app, take_drop.
Qed.

Lemma color_map_escape (line : string) (c : ascii) (color : string) :
  color_map line !! c = Some color → is_escape color.
Proof.
  unfold color_map, is_escape. rewrite !lookup_insert, lookup_empty.
  repeat case_decide; destruct (startswith line PLUS); naive_solver.
Qed.

Lemma color_map_marker (line : string) (c : ascii) :
  c ∈ [HAT; MINUS; PLUS] → ∃ color, dict_get (color_map line) c = Ok color.
Proof.
  unfold color_map, dict_get. rewrite !lookup_insert, lookup_empty.
  intros Hc. repeat case_decide; eauto. exfalso. set_solver.
Qed.

Lemma colorize_step_ok (line : string) (chars : list string) (flag : ascii)
    (offset : nat) (ic : nat * ascii) :
  pieces_ok chars →
  ∃ chars' flag' offset',
    colorize_step line (chars, flag, offset) ic = Ok (chars', flag', offset') ∧
    pieces_ok chars' ∧ plain_of chars' = plain_of chars.
Proof.
  intros Hok. destruct ic as [i squigly_char]. unfold colorize_step.
  assert (He : is_escape END_COLOR) by (right; by left).
  case_bool_decide; [|by eauto 6].
  case_bool_decide as Hm; [|].
  - destruct (color_map_marker line squigly_char Hm) as (color & Hcolor).
    rewrite Hcolor. simpl.
    assert (Hce : is_escape color).
    { unfold dict_get in Hcolor.
      destruct (color_map line !! squigly_char) eqn:E; [|done].
      injection Hcolor as ->. by eapply color_map_escape. }
    do 3 eexists. split; [done|]. split.
    + apply pieces_ok_insert; [done|]. by apply pieces_ok_insert.
    + by rewrite !plain_of_insert.
  - do 3 eexists. split; [done|]. split.
    + by apply pieces_ok_insert.
    + by rewrite plain_of_insert.
Qed.

Lemma colorize_loop_ok (line : string) (squigly : list (nat * ascii))
    (chars : list string) (flag : ascii) (offset : nat) :
  pieces_ok chars →
  ∃ chars' flag' offset',
    foldM (colorize_step line) (chars, flag, offset) squigly = Ok (chars', flag', offset') ∧
    pieces_ok chars' ∧ plain_of chars' = plain_of chars.
Proof.
  revert chars flag offset.
  induction squigly as [|ic squigly IH]; intros chars flag offset Hok.
  - by exists chars, flag, offset.
  - destruct (colorize_step_ok line chars flag offset ic Hok)
      as (chars1 & flag1 & offset1 & Hstep & Hok1 & Hp1).
    destruct (IH chars1 flag1 offset1 Hok1) as (chars2 & flag2 & offset2 & Hloop & Hok2 & Hp2).
    exists chars2, flag2, offset2. split; [|split; [done | congruence]].
    cbn [foldM]. rewrite Hstep. exact Hloop.
Qed.

Lemma chars_of_line (line : string) :
  (∀ c, c ∈ list_ascii_of_string line → c ≠ ESC) →
  pieces_ok ((λ c, String c "") <$> list_ascii_of_string line) ∧
  plain_of ((λ c, String c "") <$> list_ascii_of_string line) = line.
Proof.
  unfold pieces_ok, plain_of.
  induction line as [|a line IH]; intros Hesc; [done|].
  destruct IH as [IH1 IH2]; [intros c Hc; apply Hesc; by right|].
  cbn [list_ascii_of_string]. rewrite fmap_cons. split.
  - constructor; [|done]. right. exists a. split; [done|]. apply Hesc. by left.
  - rewrite filter_cons, decide_True by done.
    rewrite join_empty_cons, append_cons, append_nil_l. simpl. f_equal. exact IH2.
Qed.

Lemma colorize_step_total (line : string) (st : list string * ascii * nat)
    (ic : nat * ascii) :
  ∃ st', colorize_step line st ic = Ok st'.
Proof.
  destruct st as [[chars flag] offset], ic as [i squigly_char]. unfold colorize_step.
  case_bool_decide; [|by eauto].
  case_bool_decide as Hm; [|by eauto].
  destruct (color_map_marker line squigly_char Hm) as (color & ->). by eauto.
Qed.

Lemma foldM_total {A S : Type} (f : S → A → result S) (l : list A) (s : S) :
  (∀ s x, ∃ s', f s x = Ok s') → ∃ s', foldM f s l = Ok s'.
Proof.
  intros Hf. revert s. induction l as [|x l IH]; intros s; simpl; [by eauto|].
  destruct (Hf s x) as (s1 & ->). simpl. apply IH.
Qed.

Lemma nonempty_false (s : string) : nonempty s = false ↔ s = "".
Proof. by destruct s. Qed.

(** X5. [colorize] raises in one case only: in color mode, with no squigly
    line, on an empty line, where [line[0]] is an [IndexError].  In every
    other case it returns a text. *)
Theorem colorize_raises (self : MultiDiff) (line squigly : string) :
  if colored self && negb (nonempty squigly) && negb (nonempty line)
  then colorize self line squigly = Raise IndexError
  else ∃ text, colorize self line squigly = Ok text.
Proof.
  unfold colorize.
  destruct (colored self); simpl; [|by eauto].
  destruct (nonempty squigly); simpl.
  - destruct (foldM_total (colorize_step line)
                (enumerate (list_ascii_of_string squigly))
                ((λ c, String c "") <$> list_ascii_of_string line, " "%char, 0%nat)
                (colorize_step_total line)) as ([[chars flag] offset] & ->).
    simpl. by eauto.
  - destruct line; simpl; by eauto.
Qed.

Lemma strip_escapes_line (line : string) :
  (∀ c, c ∈ list_ascii_of_string line → c ≠ ESC) → strip_escapes line = line.
Proof.
  unfold strip_escapes. induction line as [|a line IH]; intros Hesc; [done|].
  simpl. rewrite bool_decide_false by (apply Hesc; by left).
  f_equal. apply IH. intros c Hc. apply Hesc. by right.
Qed.

(** X6. Colorizing changes nothing but escape sequences.  For a line that
    holds no [ESC] character, and unless the line and the squigly line are
    both empty in color mode, [colorize] returns a text that is the line
    again once its escape sequences are taken out; without color mode it is
    the line itself. *)
Theorem colorize_keeps_text (self : MultiDiff) (line squigly : string) :
  (∀ c, c ∈ list_ascii_of_string line → c ≠ ESC) →
  colored self = false ∨ squigly ≠ "" ∨ line ≠ "" →
  ∃ text, colorize self line squigly = Ok text ∧
          strip_escapes text = line ∧
          (colored self = false → text = line).
Proof.
  intros Hesc Hcase. unfold colorize.
  destruct (colored self) eqn:Hcol; simpl.
  2:{ exists line. split; [done|]. split; [by apply strip_escapes_line | done]. }
  destruct (chars_of_line line Hesc) as [Hok Hplain].
  assert (He : is_escape END_COLOR) by (right; by left).
  destruct (nonempty squigly) eqn:Hsq.
  - destruct (colorize_loop_ok line (enumerate (list_ascii_of_string squigly))
                ((λ c, String c "") <$> list_ascii_of_string line) " "%char 0%nat Hok)
      as (chars & flag & offset & -> & Hok' & Hplain').
    simpl. eexists. split; [done|]. split; [|done].
    rewrite strip_escapes_join by by apply pieces_ok_insert.
    by rewrite plain_of_insert, Hplain', Hplain.
  - apply nonempty_false in Hsq.
    destruct line as [|a line]; [naive_solver|].
    exists (join "" (default "" (color_map (String a line) !! a)
                      :: ((λ c, String c "") <$> list_ascii_of_string (String a line))
                      ++ [END_COLOR])).
    split; [done|]. split; [|done].
    assert (Hc : is_escape (default "" (color_map (String a line) !! a))).
    { destruct (color_map (String a line) !! a) eqn:E; simpl.
      - by eapply color_map_escape.
      - by left. }
    rewrite strip_escapes_join.
    + unfold plain_of in *.
      rewrite filter_cons, decide_False by by apply is_escape_length.
      rewrite filter_app, filter_cons, decide_False by by apply is_escape_length.
      rewrite filter_nil, app_nil_r. exact Hplain.
    + constructor; [by left|]. apply Forall_app. split; [done|].
      constructor; [by left | constructor].
Qed.

Lemma colorize_keeps_text_witness :
  ∃ text,
    colorize (mkMultiDiff "base" ["a"] ["f"] true ∅) "- abc" "?   ^" = Ok text ∧
    strip_escapes text = "- abc" ∧
    (true = false → text = "- abc").
Proof.
  apply (colorize_keeps_text (mkMultiDiff "base" ["a"] ["f"] true ∅) "- abc" "?   ^").
  - intros c Hc. vm_compute in Hc.
    repeat (apply elem_of_cons in Hc as [->|Hc]; [done|]). by apply elem_of_nil in Hc.
  - right. by left.
Defined.

(** ** [get_line] returns *)

Lemma foldM_total_in {A S : Type} (f : S → A → result S) (l : list A) (s : S) :
  (∀ s x, x ∈ l → ∃ s', f s x = Ok s') → ∃ s', foldM f s l = Ok s'.
Proof.
  intros Hf.
  destruct (foldM_invariant f (λ _ _, True) l s) as (s' & Hs' & _); [done| |by eauto].
  intros visited x s0 _ Hx. destruct (Hf s0 x Hx) as (s1 & ->). by eauto.
Qed.

Lemma colorize_total (self : MultiDiff) (line squigly : string) :
  line ≠ "" → ∃ text, colorize self line squigly = Ok text.
Proof.
  intros Hline. unfold colorize.
  destruct (colored self); simpl; [|by eauto].
  destruct (nonempty squigly); simpl.
  - destruct (foldM_total (colorize_step line)
                (enumerate (list_ascii_of_string squigly))
                ((λ c, String c "") <$> list_ascii_of_string line, " "%char, 0%nat)
                (colorize_step_total line)) as ([[chars flag] offset] & ->).
    simpl. by eauto.
  - destruct line; [done|]. simpl. by eauto.
Qed.

Lemma shown_in_lines (tuples : list diff_tuple) (st : collected)
    (shown : list (string * nat)) (text : string) :
  collected_inv tuples st → shown_lines st = Ok shown → text ∈ shown.*1 →
  ∃ t, t ∈ tuples ∧ tuple_line t = text.
Proof.
  intros Hinv Hshown Hin.
  pose proof (keyed_lines_ok tuples st Hinv) as Hkeyed.
  destruct Hinv as (Hl & _ & _).
  unfold shown_lines in Hshown. rewrite Hkeyed in Hshown. simpl in Hshown.
  injection Hshown as <-.
  apply list_elem_of_fmap in Hin as ([text0 c] & -> & Hin). simpl.
  assert (Hin' : (text0, c) ∈ sorted_by_key
            ((λ text, (text, size (group_files tuples text))) <$> elements (lines st))).
  { rewrite <- (take_drop MAX_DIFF_GROUPS). apply elem_of_app. by left. }
  rewrite sorted_by_key_perm in Hin'.
  apply list_elem_of_fmap in Hin' as (text & [= -> ->] & Hin').
  apply elem_of_elements in Hin'. rewrite Hl in Hin'.
  apply elem_of_list_to_set, list_elem_of_fmap in Hin'. naive_solver.
Qed.

Lemma render_variant_total (self : MultiDiff) (line_no : Z) (tuples : list diff_tuple)
    (st : collected) (diff_line : string) :
  collected_inv tuples st → diff_line ∈ lines st → diff_line ≠ "" → (1 ≤ line_no)%Z →
  ∃ out, render_variant self line_no st diff_line = Ok out.
Proof.
  intros (Hl & Hc & Hs) Hin Hne Hn. unfold render_variant.
  destruct (colorize_total self diff_line
              (default "" (squiglies st !! diff_line)) Hne) as (text & ->).
  simpl. unfold dict_get. rewrite Hc, decide_True by done. simpl.
  destruct (negb (colored self) && nonempty (default "" (squiglies st !! diff_line)));
    [|by eauto].
  destruct (int_log10_spec line_no Hn) as (k & -> & _). simpl. by eauto.
Qed.

Lemma get_line_key_total (self : MultiDiff) (line_no : Z)
    (diff_dict : gmap ascii (list diff_tuple)) (output : list string) (key : ascii) :
  (∀ t, t ∈ default [] (diff_dict !! key) → (1 ≤ line_no)%Z ∧ tuple_line t ≠ "") →
  ∃ out, get_line_key self line_no diff_dict output key = Ok out.
Proof.
  intros Hreg.
  destruct (collect_inv diff_dict key) as (st & Hcol & Hinv).
  pose proof (keyed_lines_ok _ st Hinv) as Hkeyed.
  assert (Hshown : ∃ shown, shown_lines st = Ok shown)
    by (unfold shown_lines; rewrite Hkeyed; simpl; by eauto).
  destruct Hshown as (shown & Hshown).
  rewrite (get_line_key_unfold self line_no diff_dict output key st shown Hcol Hshown).
  unfold render_shown. apply foldM_total_in. intros out text Hin.
  destruct (shown_in_lines _ st shown text Hinv Hshown Hin) as (t & Ht & <-).
  destruct (Hreg t Ht) as [Hn Hne].
  destruct (render_variant_total self line_no _ st (tuple_line t) Hinv) as (r & ->);
    [|done|done|simpl; by eauto].
  destruct Hinv as (-> & _ & _).
  apply elem_of_list_to_set, list_elem_of_fmap. by eauto.
Qed.

Lemma get_line_total (self : MultiDiff) (line_no : Z) :
  well_registered self → ∃ out, get_line self line_no = Ok out.
Proof.
  intros Hreg. unfold get_line.
  assert (Hkey : ∀ output key,
            ∃ out, get_line_key self line_no (default ∅ (diff_info self !! line_no))
                                output key = Ok out).
  { intros output key. apply get_line_key_total. intros t Ht. by apply (Hreg line_no key). }
  cbn [foldM].
  destruct (Hkey [] MINUS) as (out1 & ->). simpl.
  destruct (Hkey out1 PLUS) as (out2 & ->). simpl.
  destruct (_ && _); by eauto.
Qed.

Lemma get_line_unregistered (self : MultiDiff) (line_no : Z) :
  diff_info self !! line_no = None → get_line self line_no = Ok [].
Proof. intros Hn. unfold get_line. rewrite Hn. done. Qed.

(** ** [__str__] and [multidiff] return *)

Lemma str_step_total (self : MultiDiff) (term_width : Z) (st : list string * bool)
    (i : nat) :
  well_registered self → ∃ st', str_step self term_width st i = Ok st'.
Proof.
  intros Hreg. destruct st as [output diff]. unfold str_step.
  destruct (get_line_total self (Z.of_nat i) Hreg) as (got & ->). simpl.
  destruct (filter _ got); by eauto.
Qed.

Lemma to_str_total (det_terminal_size : Z * Z) (self : MultiDiff) :
  well_registered self → ∃ text, to_str det_terminal_size self = Ok text.
Proof.
  intros Hreg. unfold to_str.
  edestruct (foldM_total (str_step self det_terminal_size.1)) as ([output diff] & ->).
  - intros st i. by apply str_step_total.
  - simpl. by eauto.
Qed.

Lemma elem_of_concat {A : Type} (x : A) (ls : list (list A)) :
  x ∈ concat ls ↔ ∃ l, x ∈ l ∧ l ∈ ls.
Proof.
  induction ls as [|l0 ls IH]; simpl.
  - rewrite elem_of_nil. split; [done|]. intros (l & _ & Hl). by apply elem_of_nil in Hl.
  - rewrite elem_of_app, IH. setoid_rewrite elem_of_cons. naive_solver.
Qed.

Lemma anchor_pos (diff : list string) (i : nat) : (1 ≤ anchor diff i)%Z.
Proof. unfold anchor. lia. Qed.

Lemma changes_under_ok (filename : string) (diff : list string) (n : Z) (key : ascii)
    (t : diff_tuple) :
  t ∈ changes_under filename diff n key → (1 ≤ n)%Z ∧ tuple_line t ≠ "".
Proof.
  unfold changes_under, entries_under.
  intros (lf & -> & [_ Hlf]%list_elem_of_filter)%list_elem_of_fmap.
  unfold registered_at in Hlf.
  apply list_elem_of_fmap in Hlf as ([i line] & -> & [[Hc Ha] _]%list_elem_of_filter).
  simpl in *. split; [rewrite <- Ha; apply anchor_pos|].
  destruct (is_change_first _ Hc) as (c & rest & -> & Hkey).
  destruct (rstrip_first c rest) as (rest' & Hr); [by destruct Hkey as [->| ->]|].
  unfold tuple_line, entry_tuple. cbn [fst]. by rewrite Hr.
Qed.

(** X7. [multidiff] raises nothing of its own: whatever the files hold,
    whatever lines the differ puts out, whether or not the logger raises and
    whatever the terminal size is, it returns a text. *)
Theorem multidiff_returns (log_error_raises : bool) (read_file : string → string)
    (differ_compare : list string → list string → list string)
    (det_terminal_size : Z * Z) (base : string) (filepaths : list string)
    (color : bool) :
  ∃ text,
    multidiff log_error_raises read_file differ_compare det_terminal_size
              base filepaths color = Ok text.
Proof.
  unfold multidiff, multidiff_object.
  destruct (add_files_ok log_error_raises read_file differ_compare
              (split_lines (read_file base)) filepaths
              (MultiDiff_init (basename base) (split_lines (read_file base)) filepaths color))
    as (mdiff & -> & _ & Ht).
  simpl. apply to_str_total.
  intros n k t. rewrite Ht. simpl.
  intros (l & Hin & (filepath & -> & _)%list_elem_of_fmap)%elem_of_concat.
  by eapply changes_under_ok.
Qed.

(** ** Reports without a difference *)

Lemma foldM_unchanged {A S : Type} (f : S → A → result S) (l : list A) (s : S) :
  (∀ x, x ∈ l → f s x = Ok s) → foldM f s l = Ok s.
Proof.
  induction l as [|x l IH]; intros Hf; simpl; [done|].
  rewrite Hf by by left. simpl. apply IH. intros y Hy. apply Hf. by right.
Qed.

Lemma to_str_unregistered (det_terminal_size : Z * Z) (self : MultiDiff) :
  (∀ i : nat, i < length (base_lines self) → diff_info self !! Z.of_nat i = None) →
  to_str det_terminal_size self
  = Ok (join NL ["Comparing " +:+ color_line self (base_fn self) PURPLE +:+ " with "
                   +:+ join ", " (basename <$> files self);
                 "====="; "(no diff)"; "====="]).
Proof.
  intros Hnone. unfold to_str.
  rewrite foldM_unchanged.
  - done.
  - intros i Hi%elem_of_seq. unfold str_step.
    rewrite get_line_unregistered by (apply Hnone; lia). done.
Qed.



Lemma foldM_preserves {A S : Type} (f : S → A → result S) (P : S → Prop)
    (l : list A) (s s' : S) :
  (∀ s x s', P s → f s x = Ok s' → P s') → P s → foldM f s l = Ok s' → P s'.
Proof.
  intros Hf. revert s. induction l as [|x l IH]; intros s Hs; simpl.
  - by intros [= <-].
  - destruct (f s x) as [s1|e] eqn:E; simpl; [|done]. apply IH. by eapply Hf.
Qed.

Lemma parse_line_tidy (log_error_raises : bool) (self self' : MultiDiff) (line_no : Z)
    (diff_line meta squigly_line : string) :
  tidy self →
  parse_line log_error_raises self line_no diff_line meta squigly_line = Ok self' →
  tidy self'.
Proof.
  intros Htidy. unfold parse_line.
  destruct (first_char diff_line) as [key|]; simpl; [|done].
  destruct (if negb (bool_decide (key ∈ [MINUS; PLUS])) then _ else _); simpl; [|done].
  intros [= <-]. intros n d. simpl. rewrite lookup_insert.
  destruct (decide (line_no = n)) as [->|Hn]; [|by apply Htidy].
  intros [= <-]. exists key, (diff_line, meta, squigly_line).
  rewrite lookup_insert, decide_True by done. simpl.
  apply elem_of_app. right. by left.
Qed.

Lemma register_tidy (log_error_raises : bool) (st : norm_state) (mdiff mdiff' : MultiDiff) :
  tidy mdiff → register log_error_raises st mdiff = Ok mdiff' → tidy mdiff'.
Proof.
  intros Htidy. unfold register. apply foldM_preserves; [|done].
  intros m [line_no entries] m' Hm. apply foldM_preserves; [|done].
  intros m1 [line filename] m1' Hm1. unfold register_line. by apply parse_line_tidy.
Qed.

Lemma add_files_tidy (log_error_raises : bool) (read_file : string → string)
    (differ_compare : list string → list string → list string)
    (base_lines filepaths : list string) (mdiff mdiff' : MultiDiff) :
  tidy mdiff →
  foldM (add_file log_error_raises read_file differ_compare base_lines) mdiff filepaths
  = Ok mdiff' →
  tidy mdiff'.
Proof.
  intros Htidy. apply foldM_preserves; [|done].
  intros m filepath m' Hm. unfold add_file, add_diff. by apply register_tidy.
Qed.

Lemma tidy_unregistered (self : MultiDiff) (n : Z) :
  tidy self → (∀ k, tuples_at self n k = []) → diff_info self !! n = None.
Proof.
  intros Htidy Hnone. destruct (diff_info self !! n) as [d|] eqn:E; [|done].
  destruct (Htidy n d E) as (k & t & Ht).
  specialize (Hnone k). unfold tuples_at in Hnone. rewrite E in Hnone. simpl in Hnone.
  rewrite Hnone in Ht. by apply elem_of_nil in Ht.
Qed.

Lemma filter_none {A : Type} (P : A → Prop) `{∀ x, Decision (P x)} (l : list A) :
  (∀ x, x ∈ l → ¬ P x) → filter P l = [].
Proof.
  induction l as [|a l IH]; intros Hl; [done|].
  rewrite filter_cons, decide_False by (apply Hl; by left).
  apply IH. intros x Hx. apply Hl. by right.
Qed.

Lemma registered_at_no_change (filename : string) (diff : list string) (n : Z) :
  Forall (λ line, is_change line = false) diff → registered_at filename diff n = [].
Proof.
  intros Hall. unfold registered_at. rewrite filter_none; [done|].
  intros [i line] Hin%elem_of_enumerate%list_elem_of_lookup_2 [Hc _]. simpl in *.
  rewrite Forall_forall in Hall. apply Hall in Hin. congruence.
Qed.

Lemma file_changes_none (read_file : string → string)
    (differ_compare : list string → list string → list string)
    (base_lines filepaths : list string) (n : Z) (k : ascii) :
  (∀ filepath, filepath ∈ filepaths →
     Forall (λ line, is_change line = false)
            (differ_compare (split_lines (read_file filepath)) base_lines)) →
  concat (file_changes read_file differ_compare base_lines n k <$> filepaths) = [].
Proof.
  induction filepaths as [|filepath filepaths IH]; intros Hsame; [done|].
  rewrite fmap_cons. cbn [concat].
  rewrite IH by (intros f Hf; apply Hsame; by right). rewrite app_nil_r.
  unfold file_changes, changes_under, entries_under.
  by rewrite registered_at_no_change by (apply Hsame; by left).
Qed.

(** X9. If the differ reports no change for any of the files, that is, if
    no line of its outputs starts with [+] or [-], then [multidiff] returns
    the header, the rule, [(no diff)] and the rule. *)
Theorem multidiff_no_changes (log_error_raises : bool) (read_file : string → string)
    (differ_compare : list string → list string → list string)
    (det_terminal_size : Z * Z) (base : string) (filepaths : list string)
    (color : bool) :
  (∀ filepath, filepath ∈ filepaths →
     Forall (λ line, is_change line = false)
            (differ_compare (split_lines (read_file filepath))
                            (split_lines (read_file base)))) →
  multidiff log_error_raises read_file differ_compare det_terminal_size
            base filepaths color
  = Ok (join NL ["Comparing "
                   +:+ (if color then PURPLE +:+ basename base +:+ END_COLOR
                        else basename base)
                   +:+ " with " +:+ join ", " (basename <$> filepaths);
                 "====="; "(no diff)"; "====="]).
Proof.
  intros Hsame. unfold multidiff, multidiff_object.
  destruct (add_files_ok log_error_raises read_file differ_compare
              (split_lines (read_file base)) filepaths
              (MultiDiff_init (basename base) (split_lines (read_file base)) filepaths color))
    as (mdiff & Hr & (H1 & H2 & H3 & H4) & Ht).
  rewrite Hr. simpl.
  assert (Htidy : tidy mdiff).
  { eapply add_files_tidy; [|exact Hr]. intros n d. simpl. by rewrite lookup_empty. }
  rewrite to_str_unregistered.
  - unfold color_line. rewrite H1, H3, H4. simpl. by destruct color.
  - intros i _. apply tidy_unregistered; [done|]. intros k. rewrite Ht. simpl.
    by apply file_changes_none.
Qed.

Lemma multidiff_no_changes_witness :
  multidiff true (λ path, if bool_decide (path = "/tmp/base") then "a" else "b")
            (λ lines base_lines, ["  a"; "  b"; "? x"]) (80, 24)%Z
            "/tmp/base" ["/tmp/f1"] false
  = Ok (join NL ["Comparing base with f1"; "====="; "(no diff)"; "====="]).
Proof.
  apply (multidiff_no_changes true
           (λ path, if bool_decide (path = "/tmp/base") then "a" else "b")
           (λ lines base_lines, ["  a"; "  b"; "? x"]) (80, 24)%Z
           "/tmp/base" ["/tmp/f1"] false).
  intros filepath _. by repeat constructor.
Defined.

(** ** Line numbers are positions in the base *)

Lemma filter_lookup_count {A : Type} (P : A → Prop) `{∀ x, Decision (P x)}
    (l : list A) (i : nat) (x : A) :
  l !! i = Some x → P x → filter P l !! length (filter P (take i l)) = Some x.
Proof.
  intros Hi HP.
  remember (filter P (take i l)) as pre eqn:Hpre.
  rewrite <- (take_drop_middle l i x Hi).
  rewrite filter_app, filter_cons, decide_True by done.
  rewrite <- Hpre. by rewrite lookup_app_r, Nat.sub_diag by lia.
Qed.

(** X10. The number under which [multidiff] registers a line that the
    differ marks [+] (a line of the base) is the position, counted from 1,
    of that line among the lines of the differ's output that stand for base
    lines (those that start with neither [?] nor [-]). *)
Theorem added_line_number (filename : string) (diff : list string) (n : Z)
    (entries : list (string * string)) (line : string) :
  local_diff (normalize filename diff) !! n = Some entries →
  (line, filename) ∈ entries →
  startswith line PLUS = true →
  (1 ≤ n)%Z ∧
  filter (λ l, advances l = true) diff !! Z.to_nat (n - 1) = Some line.
Proof.
  intros Hn Hin Hplus.
  destruct (normalize_inv filename diff) as (Hld & _ & _ & _).
  rewrite Hld in Hn.
  assert (Hin' : (line, filename) ∈ registered_at filename diff n).
  { destruct (registered_at filename diff n); [done|]. by injection Hn as <-. }
  unfold registered_at in Hin'.
  apply list_elem_of_fmap in Hin' as ([i line'] & [= <-] & [[Hc Ha] Hi]%list_elem_of_filter).
  simpl in *. apply elem_of_enumerate in Hi.
  split; [rewrite <- Ha; apply anchor_pos|].
  rewrite <- Ha. unfold anchor.
  replace (Z.to_nat (1 + Z.of_nat (length (filter (λ l, advances l = true) (take i diff))) - 1))
    with (length (filter (λ l, advances l = true) (take i diff))) by lia.
  apply filter_lookup_count; [done|].
  unfold advances.
  destruct (startswith line QUESTIONMARK) eqn:Hq;
    [by pose proof (startswith_inj _ _ _ Hq Hplus)|].
  destruct (startswith line MINUS) eqn:Hm;
    [by pose proof (startswith_inj _ _ _ Hm Hplus)|done].
Qed.

Lemma added_line_number_witness :
  (1 ≤ 2)%Z ∧
  filter (λ l, advances l = true) ["  a"; "- x"; "+ b"; "  c"] !! Z.to_nat (2 - 1)
  = Some "+ b".
Proof.
  apply (added_line_number "f1" ["  a"; "- x"; "+ b"; "  c"] 2
           [("- x", "f1"); ("+ b", "f1")] "+ b").
  - by vm_compute.
  - right. by left.
  - reflexivity.
Defined.

(** ** The rendering of one variant *)




(** ** [limit] *)

Lemma length_str_take (n : nat) (s : string) :
  String.length (str_take n s) = n `min` String.length s.
Proof.
  revert s; induction n as [|n IH]; intros [|a s]; simpl; try done.
  by rewrite IH.
Qed.

(** X12. What [limit] returns.  A text of at most [length] characters is
    returned as it is.  A longer one is cut to its first [kept] characters,
    followed by the reset escape in color mode and by three dots, where
    [kept = length - 3] when [length] is at least 3; so without color mode
    the result has exactly [length] characters, and in color mode four more.
    When [length] is below 3 the bound of the slice is negative and [kept] is
    the length of the text plus [length - 3] (or 0 if that is negative): the
    result is then longer than [length]. *)
Theorem limit_spec (self : MultiDiff) (text : string) (length : Z) :
  let len := Z.of_nat (String.length text) in
  if (len <=? length)%Z then limit self text length = text
  else
    ∃ kept : nat,
      limit self text length
      = (if colored self then str_take kept text +:+ END_COLOR else str_take kept text)
        +:+ END_LONG_LINE ∧
      Z.of_nat kept
      = (if (3 <=? length)%Z then length - 3 else Z.max 0 (len + length - 3))%Z ∧
      Z.of_nat (String.length (limit self text length))
      = (Z.of_nat kept + (if colored self then 4 else 0) + 3)%Z.
Proof.
  intros len. subst len. unfold limit.
  destruct (Z.leb_spec (Z.of_nat (String.length text)) length) as [Hle|Hgt].
  - by rewrite (proj2 (Z.ltb_ge length _)) by done.
  - rewrite (proj2 (Z.ltb_lt length _)) by done.
    unfold slice_to. change (Z.of_nat (String.length END_LONG_LINE)) with 3%Z.
    destruct (Z.ltb_spec (length - 3) 0) as [Hneg|Hpos].
    + exists (Z.to_nat (Z.of_nat (String.length text) + (length - 3))
              `min` String.length text).
      rewrite (proj2 (Z.leb_gt 3 length)) by lia.
      assert (Hk : ∀ n, str_take n text = str_take (n `min` String.length text) text).
      { clear. intros n. revert text.
        induction n as [|n IH]; intros [|a s]; simpl; try done. by rewrite <- IH. }
      rewrite (Hk (Z.to_nat _)). split; [done|]. split; [lia|].
      destruct (colored self); rewrite !length_append, length_str_take; simpl; lia.
    + exists (Z.to_nat (length - 3)).
      rewrite (proj2 (Z.leb_le 3 length)) by lia.
      split; [done|]. split; [lia|].
      destruct (colored self); rewrite !length_append, length_str_take; simpl; lia.
Qed.

(** ** What [get_line] can raise *)

Lemma foldM_raise {A S : Type} (f : S → A → result S) (l : list A) (s : S) (e : exn) :
  foldM f s l = Raise e → ∃ s0 x, x ∈ l ∧ f s0 x = Raise e.
Proof.
  revert s. induction l as [|a l IH]; intros s; simpl; [done|].
  destruct (f s a) as [s1|e1] eqn:E; simpl.
  - intros H. destruct (IH _ H) as (s0 & x & Hx & Hf).
    exists s0, x. split; [by right | done].
  - intros [= <-]. exists s, a. split; [by left | done].
Qed.

Lemma colorize_raise_inv (self : MultiDiff) (line squigly : string) (e : exn) :
  colorize self line squigly = Raise e →
  colored self = true ∧ line = "" ∧ e = IndexError.
Proof.
  unfold colorize. destruct (colored self); simpl; [|done].
  destruct (nonempty squigly); simpl.
  - destruct (foldM_total (colorize_step line)
                (enumerate (list_ascii_of_string squigly))
                ((λ c, String c "") <$> list_ascii_of_string line, " "%char, 0%nat)
                (colorize_step_total line)) as ([[chars flag] offset] & ->).
    done.
  - destruct line; simpl; [|done]. by intros [= <-].
Qed.

Lemma render_variant_raise_inv (self : MultiDiff) (line_no : Z)
    (tuples : list diff_tuple) (st : collected) (text : string) (e : exn) :
  collected_inv tuples st → text ∈ lines st →
  render_variant self line_no st text = Raise e →
  (colored self = false ∧ e = ValueError ∧ (line_no ≤ 0)%Z) ∨
  (colored self = true ∧ e = IndexError ∧ text = "").
Proof.
  intros (Hl & Hc & Hs) Hin. unfold render_variant.
  destruct (colorize self text (default "" (squiglies st !! text))) as [colored_text|e1]
    eqn:Hcol; simpl.
  - unfold dict_get. rewrite Hc, decide_True by done. simpl.
    destruct (negb (colored self) && nonempty (default "" (squiglies st !! text)))
      eqn:Hb; [|done].
    apply andb_true_iff in Hb as [Hb%negb_true_iff _].
    unfold int_log10. destruct (Z.leb_spec line_no 0); simpl; [|done].
    intros [= <-]. by left.
  - intros [= <-]. apply colorize_raise_inv in Hcol as (? & ? & ?). by right.
Qed.

(** X13. What [get_line] can raise.  If it raises for a line number, then
    some tuple is registered for that line number, and either color mode is
    off, the exception is the [ValueError] of [math.log10] and the line
    number is not positive, or color mode is on, the exception is the
    [IndexError] of [line[0]] and a registered tuple has an empty text. *)
Theorem get_line_raises (self : MultiDiff) (line_no : Z) (e : exn) :
  get_line self line_no = Raise e →
  ∃ key t, t ∈ tuples_at self line_no key ∧
    ((colored self = false ∧ e = ValueError ∧ (line_no ≤ 0)%Z) ∨
     (colored self = true ∧ e = IndexError ∧ tuple_line t = "")).
Proof.
  unfold get_line.
  destruct (foldM _ [] [MINUS; PLUS]) as [output|e1] eqn:Hfold; simpl.
  { by destruct (_ && _). }
  intros [= <-].
  apply foldM_raise in Hfold as (output & key & _ & Hkey).
  destruct (collect_inv (default ∅ (diff_info self !! line_no)) key) as (st & Hcol & Hinv).
  pose proof (keyed_lines_ok _ st Hinv) as Hkeyed.
  assert (Hshown : ∃ shown, shown_lines st = Ok shown)
    by (unfold shown_lines; rewrite Hkeyed; simpl; by eauto).
  destruct Hshown as (shown & Hshown).
  rewrite (get_line_key_unfold self line_no _ output key st shown Hcol Hshown) in Hkey.
  apply foldM_raise in Hkey as (out & text & Hin & Hr).
  destruct (shown_in_lines _ st shown text Hinv Hshown Hin) as (t & Ht & <-).
  exists key, t. split; [done|].
  destruct (render_variant self line_no st (tuple_line t)) as [r|e2] eqn:Hrender;
    simpl in Hr; [done|].
  injection Hr as ->.
  eapply render_variant_raise_inv; [done| |done].
  destruct Hinv as (-> & _ & _).
  apply elem_of_list_to_set, list_elem_of_fmap. by eauto.
Qed.

Lemma get_line_raises_witness :
  ∃ key t,
    t ∈ tuples_at (mkMultiDiff "base" ["a"] ["f1"] false
                     {[ 0%Z := {[ MINUS := [("- x", "f1", "?  ^")] ]} ]}) 0 key ∧
    ((false = false ∧ ValueError = ValueError ∧ (0 ≤ 0)%Z) ∨
     (false = true ∧ ValueError = IndexError ∧ tuple_line t = "")).
Proof.
  apply (get_line_raises
           (mkMultiDiff "base" ["a"] ["f1"] false
              {[ 0%Z := {[ MINUS := [("- x", "f1", "?  ^")] ]} ]}) 0 ValueError).
  by vm_compute.
Defined.

(** ** The accumulation loop of [get_line] *)

Lemma merged_squigly_snoc (visited : list diff_tuple) (t : diff_tuple) (text : string) :
  merged_squigly (visited ++ [t]) text
  = if decide (tuple_line t = text ∧ tuple_squigly t ≠ "")
    then merge_into (merged_squigly visited text) (tuple_squigly t)
    else merged_squigly visited text.
Proof.
  unfold merged_squigly. rewrite with_text_snoc, fmap_app, filter_app, foldl_app.
  destruct (decide (tuple_line t = text)) as [Ht|Ht]; simpl.
  - rewrite filter_cons, filter_nil.
    destruct (decide (tuple_squigly t ≠ "")) as [Hs|Hs]; simpl.
    + by rewrite decide_True by done.
    + by rewrite decide_False by naive_solver.
  - by rewrite decide_False by naive_solver.
Qed.

Lemma collect_step_squiglies (visited : list diff_tuple) (st st' : collected)
    (t : diff_tuple) :
  collect_step st t = Ok st' →
  (∀ text, squiglies st !! text = merged_squigly visited text) →
  ∀ text, squiglies st' !! text = merged_squigly (visited ++ [t]) text.
Proof.
  destruct t as [[diff_line meta] squigly_line]. unfold collect_step.
  intros Hstep Hsq text. rewrite merged_squigly_snoc.
  unfold tuple_line, tuple_squigly. simpl.
  destruct (nonempty squigly_line) eqn:Hne.
  - apply nonempty_true in Hne.
    destruct (squiglies st !! diff_line) as [previous|] eqn:Hprev.
    + rewrite merge_squigly_total in Hstep. simpl in Hstep. injection Hstep as <-.
      simpl. rewrite lookup_insert.
      destruct (decide (diff_line = text)) as [<-|Hd].
      * rewrite decide_True by done.
        unfold merge_into. rewrite <- Hsq, Hprev. by rewrite merge_squigly_total.
      * rewrite decide_False by naive_solver. apply Hsq.
    + simpl in Hstep. injection Hstep as <-. simpl. rewrite lookup_insert.
      destruct (decide (diff_line = text)) as [<-|Hd].
      * rewrite decide_True by done. unfold merge_into. by rewrite <- Hsq, Hprev.
      * rewrite decide_False by naive_solver. apply Hsq.
  - apply nonempty_false in Hne. simpl in Hstep. injection Hstep as <-. simpl.
    rewrite decide_False by naive_solver. apply Hsq.
Qed.

(** X14. What the loop of [get_line] over the tuples of one bucket and kind
    collects; it never raises.  [lines] is the set of the texts of the
    tuples.  [changes_dict] maps each of these texts to the set of the files
    (the [meta] fields) of the tuples that carry it, so a file counts once
    however many tuples it contributes, and has no other key.  [squiglies]
    maps a text to the squigly lines of the tuples that carry it, the empty
    ones left out, merged in the order of the tuples: each one with the
    result of the ones before it. *)
Theorem collect_spec (diff_dict : gmap ascii (list diff_tuple)) (key : ascii) :
  let tuples := default [] (diff_dict !! key) in
  ∃ st, collect diff_dict key = Ok st ∧
    lines st = list_to_set (tuple_line <$> tuples) ∧
    (∀ text, changes_dict st !! text =
               if decide (text ∈ lines st)
               then Some (list_to_set (tuple_meta <$> with_text text tuples))
               else None) ∧
    (∀ text, squiglies st !! text = merged_squigly tuples text).
Proof.
  intros tuples. subst tuples. unfold collect.
  destruct (diff_dict !! key) as [tuples|]; simpl.
  - destruct (foldM_invariant collect_step
                (λ visited st, collected_inv visited st ∧
                   ∀ text, squiglies st !! text = merged_squigly visited text)
                tuples collected_empty) as (st & Hst & (Hl & Hc & _) & Hsq).
    + split; [|done]. split; [done|]. split; [|done].
      intros text. by rewrite decide_False by set_solver.
    + intros visited t st [Hinv Hsq] _.
      destruct (collect_step_inv visited st t Hinv) as (st' & Hstep & Hinv').
      exists st'. split; [done|]. split; [done|].
      by eapply collect_step_squiglies.
    + exists st. by repeat split.
  - exists collected_empty. split; [done|]. split; [done|]. split; [|done].
    intros text. by rewrite decide_False by set_solver.
Qed.

(** ** Changes that are never shown *)

Lemma registered_at_out_of_range (filename : string) (diff : list string) (n : Z) :
  (∀ i line, diff !! i = Some line → is_change line = true → (n < anchor diff i)%Z) →
  registered_at filename diff n = [].
Proof.
  intros Hall. unfold registered_at. rewrite filter_none; [done|].
  intros [i line] Hin%elem_of_enumerate [Hc Ha]. simpl in *.
  specialize (Hall i line Hin Hc). lia.
Qed.

Lemma file_changes_out_of_range (read_file : string → string)
    (differ_compare : list string → list string → list string)
    (base_lines filepaths : list string) (n : Z) (k : ascii) :
  (∀ filepath i line,
     filepath ∈ filepaths →
     differ_compare (split_lines (read_file filepath)) base_lines !! i = Some line →
     is_change line = true →
     (n < anchor (differ_compare (split_lines (read_file filepath)) base_lines) i)%Z) →
  concat (file_changes read_file differ_compare base_lines n k <$> filepaths) = [].
Proof.
  induction filepaths as [|filepath filepaths IH]; intros Hlate; [done|].
  rewrite fmap_cons. cbn [concat].
  rewrite IH by (intros f j line Hf; apply Hlate; by right). rewrite app_nil_r.
  unfold file_changes, changes_under, entries_under.
  rewrite registered_at_out_of_range; [done|].
  intros j line Hj Hc. apply (Hlate filepath j line); [by left|done..].
Qed.

(** X15. [multidiff] shows nothing of the changes that are anchored at or
    beyond the number of lines of the base (a change of the last line of a
    base that does not end in a newline, for one): if every change line of
    every differ output has such an anchor, the result is the header, the
    rule, [(no diff)] and the rule. *)
Theorem multidiff_misses_last_line (log_error_raises : bool)
    (read_file : string → string)
    (differ_compare : list string → list string → list string)
    (det_terminal_size : Z * Z) (base : string) (filepaths : list string)
    (color : bool) :
  (∀ filepath i line,
     filepath ∈ filepaths →
     differ_compare (split_lines (read_file filepath)) (split_lines (read_file base)) !! i
     = Some line →
     is_change line = true →
     (Z.of_nat (length (split_lines (read_file base)))
      ≤ anchor (differ_compare (split_lines (read_file filepath))
                               (split_lines (read_file base))) i)%Z) →
  multidiff log_error_raises read_file differ_compare det_terminal_size
            base filepaths color
  = Ok (join NL ["Comparing "
                   +:+ (if color then PURPLE +:+ basename base +:+ END_COLOR
                        else basename base)
                   +:+ " with " +:+ join ", " (basename <$> filepaths);
                 "====="; "(no diff)"; "====="]).
Proof.
  intros Hlate. unfold multidiff, multidiff_object.
  destruct (add_files_ok log_error_raises read_file differ_compare
              (split_lines (read_file base)) filepaths
              (MultiDiff_init (basename base) (split_lines (read_file base)) filepaths color))
    as (mdiff & Hr & (H1 & H2 & H3 & H4) & Ht).
  rewrite Hr. simpl.
  assert (Htidy : tidy mdiff).
  { eapply add_files_tidy; [|exact Hr]. intros n d. simpl. by rewrite lookup_empty. }
  rewrite to_str_unregistered.
  - unfold color_line. rewrite H1, H3, H4. simpl. by destruct color.
  - intros i Hi. rewrite H2 in Hi. simpl in Hi.
    apply tidy_unregistered; [done|]. intros k. rewrite Ht.
    rewrite file_changes_out_of_range; [done|].
    intros filepath j line Hf Hj Hc.
    specialize (Hlate filepath j line Hf Hj Hc). lia.
Qed.

Lemma multidiff_misses_last_line_witness :
  multidiff true
            (λ path, if bool_decide (path = "/tmp/base")
                     then "a" +:+ NL +:+ "b" +:+ NL +:+ "c"
                     else "a" +:+ NL +:+ "b" +:+ NL +:+ "d")
            (λ lines base_lines, ["  a"; "  b"; "- d"; "+ c"]) (80, 24)%Z
            "/tmp/base" ["/tmp/f1"] false
  = Ok (join NL ["Comparing base with f1"; "====="; "(no diff)"; "====="]).
Proof.
  apply (multidiff_misses_last_line true
           (λ path, if bool_decide (path = "/tmp/base")
                    then "a" +:+ NL +:+ "b" +:+ NL +:+ "c"
                    else "a" +:+ NL +:+ "b" +:+ NL +:+ "d")
           (λ lines base_lines, ["  a"; "  b"; "- d"; "+ c"]) (80, 24)%Z
           "/tmp/base" ["/tmp/f1"] false).
  intros filepath i line _ Hi Hc.
  destruct i as [|[|[|[|i]]]]; simpl in Hi; try done;
    injection Hi as <-; try done; by vm_compute.
Defined.

(** ** [merge_squigly] and the order of its arguments *)

(** X16. [merge_squigly] gives the same result for its two arguments in
    either order whenever their lengths differ: then the longer one is the
    base both times.  (For equal lengths the second argument is the base, and
    the order shows wherever both hold different characters of which the
    base's is a blank or a caret.) *)
Theorem merge_squigly_comm (squigly1 squigly2 : string) :
  String.length squigly1 ≠ String.length squigly2 →
  merge_squigly squigly1 squigly2 = merge_squigly squigly2 squigly1.
Proof.
  intros Hlen. rewrite !merge_squigly_total. unfold merge_base, merge_other.
  destruct (String.length squigly2 <? String.length squigly1)%nat eqn:E1;
    destruct (String.length squigly1 <? String.length squigly2)%nat eqn:E2;
    try done.
  - apply Nat.ltb_lt in E1, E2. lia.
  - apply Nat.ltb_ge in E1, E2. lia.
Qed.

Lemma merge_squigly_comm_witness :
  merge_squigly "?  ^" "? -" = merge_squigly "? -" "?  ^".
Proof. apply (merge_squigly_comm "?  ^" "? -"). simpl. lia. Defined.

(** ** [colorize] switches every color off again *)

Lemma color_left_on_escape (e s : string) (on : bool) :
  is_escape e → ∃ on', color_left_on_go None on (e +:+ s) = color_left_on_go None on' s.
Proof. intros [->|[->|[->| ->]]]; by eauto. Qed.

Lemma color_left_on_plain (p s : string) (on : bool) :
  is_plain p → color_left_on_go None on (p +:+ s) = color_left_on_go None on s.
Proof.
  intros (c & -> & Hc). rewrite append_cons, append_nil_l. simpl.
  by rewrite bool_decide_false by done.
Qed.

Lemma color_left_on_plains (post : list string) (on : bool) :
  Forall is_plain post → color_left_on_go None on (join "" post) = on.
Proof.
  induction 1 as [|p post Hp Hall IH]; [done|].
  by rewrite join_empty_cons, color_left_on_plain.
Qed.

Lemma color_left_on_pieces (pre post : list string) (on : bool) :
  pieces_ok pre → Forall is_plain post →
  color_left_on_go None on (join "" (pre ++ END_COLOR :: post)) = false.
Proof.
  intros Hpre Hpost. revert on.
  induction Hpre as [|p pre [He|Hp] Hall IH]; intros on.
  - rewrite app_nil_l, join_empty_cons.
    change (color_left_on_go None on (END_COLOR +:+ join "" post))
      with (color_left_on_go None false (join "" post)).
    by apply color_left_on_plains.
  - rewrite <- app_comm_cons, join_empty_cons.
    destruct (color_left_on_escape p (join "" (pre ++ END_COLOR :: post)) on He)
      as (on' & ->).
    apply IH.
  - rewrite <- app_comm_cons, join_empty_cons, color_left_on_plain by done. apply IH.
Qed.

Lemma drop_py_insert {A : Type} (P : A → Prop) (p : nat) (x : A) (l : list A) :
  Forall P (drop p l) → Forall P (drop (S p) (py_insert p x l)).
Proof.
  intros Hl. unfold py_insert. rewrite drop_app, length_take.
  rewrite (drop_ge (take p l)) by (rewrite length_take; lia). simpl.
  destruct (decide (p ≤ length l)) as [Hle|Hgt].
  - replace (S p - p `min` length l) with 1 by lia. done.
  - rewrite (drop_ge l p) by lia. rewrite drop_ge by (simpl; lia). constructor.
Qed.

Lemma Forall_drop_S {A : Type} (P : A → Prop) (n : nat) (l : list A) :
  Forall P (drop n l) → Forall P (drop (S n) l).
Proof.
  intros H. replace (S n) with (n + 1) by lia.
  rewrite <- drop_drop. by apply Forall_drop.
Qed.

Lemma colorize_step_tail (line : string) (chars : list string) (flag : ascii)
    (offset i : nat) (c : ascii) :
  Forall is_plain (drop (i + offset) chars) →
  ∃ chars' flag' offset',
    colorize_step line (chars, flag, offset) (i, c) = Ok (chars', flag', offset') ∧
    Forall is_plain (drop (S i + offset') chars').
Proof.
  intros Htail. unfold colorize_step.
  case_bool_decide.
  2:{ do 3 eexists. split; [done|]. rewrite ?Nat.add_succ_l. by apply Forall_drop_S. }
  case_bool_decide as Hm.
  - destruct (color_map_marker line c Hm) as (color & ->). simpl.
    do 3 eexists. split; [done|].
    rewrite ?Nat.add_succ_r, ?Nat.add_succ_l.
    apply Forall_drop_S. by do 2 apply drop_py_insert.
  - do 3 eexists. split; [done|].
    rewrite ?Nat.add_succ_r, ?Nat.add_succ_l.
    apply Forall_drop_S. by apply drop_py_insert.
Qed.

Lemma colorize_loop_tail (line : string) (squigly : list ascii) (i : nat)
    (chars : list string) (flag : ascii) (offset : nat) :
  Forall is_plain (drop (i + offset) chars) →
  ∃ chars' flag' offset',
    foldM (colorize_step line) (chars, flag, offset) (enumerate_from i squigly)
    = Ok (chars', flag', offset') ∧
    Forall is_plain (drop (i + length squigly + offset') chars').
Proof.
  revert i chars flag offset.
  induction squigly as [|c squigly IH]; intros i chars flag offset Htail.
  - exists chars, flag, offset. split; [done|]. by rewrite Nat.add_0_r.
  - destruct (colorize_step_tail line chars flag offset i c Htail)
      as (chars1 & flag1 & offset1 & Hstep & Htail1).
    destruct (IH (S i) chars1 flag1 offset1 Htail1)
      as (chars2 & flag2 & offset2 & Hloop & Htail2).
    exists chars2, flag2, offset2. split.
    + cbn [enumerate_from foldM]. rewrite Hstep. exact Hloop.
    + simpl length. by replace (i + S (length squigly)) with (S i + length squigly) by lia.
Qed.

Lemma chars_plain (line : string) :
  (∀ c, c ∈ list_ascii_of_string line → c ≠ ESC) →
  Forall is_plain ((λ c, String c "") <$> list_ascii_of_string line).
Proof.
  intros Hesc. apply Forall_fmap, Forall_forall. intros c Hc.
  exists c. split; [done|]. by apply Hesc.
Qed.

(** X17. The text [colorize] returns leaves no color switched on: for a
    line that holds no [ESC] character, and unless the line and the squigly
    line are both empty in color mode, the last escape sequence of the text,
    if it has any, is the reset sequence. *)
Theorem colorize_resets_color (self : MultiDiff) (line squigly : string) :
  (∀ c, c ∈ list_ascii_of_string line → c ≠ ESC) →
  colored self = false ∨ squigly ≠ "" ∨ line ≠ "" →
  ∃ text, colorize self line squigly = Ok text ∧ color_left_on text = false.
Proof.
  intros Hesc Hcase.
  pose proof (chars_plain line Hesc) as Hplain.
  assert (Hline : color_left_on line = false).
  { unfold color_left_on. generalize false. clear -Hesc.
    induction line as [|a line IH]; intros on; [done|]. simpl.
    rewrite bool_decide_false by (apply Hesc; by left).
    apply IH. intros c Hc. apply Hesc. by right. }
  unfold colorize. destruct (colored self) eqn:Hcol; simpl; [|by eauto].
  destruct (nonempty squigly) eqn:Hsq.
  - destruct (colorize_loop_ok line (enumerate (list_ascii_of_string squigly))
                ((λ c, String c "") <$> list_ascii_of_string line) " "%char 0%nat)
      as (chars & flag & offset & Hloop & Hok & _).
    { eapply Forall_impl; [exact Hplain|]. by right. }
    destruct (colorize_loop_tail line (list_ascii_of_string squigly) 0
                ((λ c, String c "") <$> list_ascii_of_string line) " "%char 0%nat)
      as (chars' & flag' & offset' & Hloop' & Htail); [done|].
    unfold enumerate in Hloop. rewrite Hloop in Hloop'. injection Hloop' as <- <- <-.
    unfold enumerate. rewrite Hloop. simpl.
    eexists. split; [done|].
    rewrite length_list_ascii in Htail. simpl in Htail.
    unfold color_left_on, py_insert.
    apply color_left_on_pieces; [by apply Forall_take | done].
  - apply nonempty_false in Hsq.
    destruct line as [|a line]; [naive_solver|].
    exists (join "" (default "" (color_map (String a line) !! a)
                      :: ((λ c, String c "") <$> list_ascii_of_string (String a line))
                      ++ [END_COLOR])).
    split; [done|].
    unfold color_left_on.
    apply (color_left_on_pieces (_ :: _) []); [|constructor].
    constructor.
    + left. destruct (color_map (String a line) !! a) eqn:E; simpl.
      * by eapply color_map_escape.
      * by left.
    + eapply Forall_impl; [exact Hplain|]. by right.
Qed.

Lemma colorize_resets_color_witness :
  ∃ text,
    colorize (mkMultiDiff "base" ["a"] ["f"] true ∅) "+ abcdef" "?   ^^" = Ok text ∧
    color_left_on text = false.
Proof.
  apply (colorize_resets_color (mkMultiDiff "base" ["a"] ["f"] true ∅) "+ abcdef" "?   ^^").
  - intros c Hc. vm_compute in Hc.
    repeat (apply elem_of_cons in Hc as [->|Hc]; [done|]). by apply elem_of_nil in Hc.
  - right. by left.
Defined.
